(** * x-cleaners: the healing combinators

    A shallow embedding of [asHealingObject], [asHealingArray] and
    [asHealingTuple] (package [@edge.app/x-cleaners]) and the proofs of their
    specification.

    Raw inputs are parsed JavaScript data: [undefined], [null], booleans,
    numbers, strings, arrays and plain objects.  A cleaner either returns a
    value or throws; a throw is the [Throw] outcome.  A property read goes
    through the prototype chain: what an object or an array does not have
    itself it inherits from [Object.prototype] or [Array.prototype], whose
    members are built-in functions.  Arrays are dense (a hole reads as
    [undefined], as it does in JavaScript). *)

From Stdlib Require Import List String Ascii Bool ZArith NArith Arith Lia.
From Stdlib Require Import DecimalString DecimalN.
Import ListNotations.
Local Open Scope string_scope.
Local Open Scope list_scope.

Set Warnings "-register-all".

(* ================================================================== *)
(** ** Values and outcomes *)

Definition key := string.

Inductive value : Type :=
| VUndefined
| VNull
| VBool (b : bool)
| VNum (n : Z)
| VStr (s : string)
| VArr (items : list value)
| VObj (entries : list (key * value))
| VFun (name : string).

(** The result of calling a JavaScript function: a returned value or a
    thrown error. *)
Inductive outcome (A : Type) : Type :=
| Return (a : A)
| Throw.
Arguments Return {A} a.
Arguments Throw {A}.

Definition bind {A B} (m : outcome A) (f : A -> outcome B) : outcome B :=
  match m with
  | Return a => f a
  | Throw => Throw
  end.

(** [try { m } catch (error) { h }] *)
Definition try_catch {A} (m : outcome A) (h : outcome A) : outcome A :=
  match m with
  | Return a => Return a
  | Throw => h
  end.

Notation "x <- m ;; k" := (bind m (fun x => k))
  (at level 61, m at next level, right associativity).

Definition Cleaner := value -> outcome value.

(** [x == null] *)
Definition is_nullish (v : value) : bool :=
  match v with
  | VUndefined | VNull => true
  | _ => false
  end.

(** [typeof x === 'object'] *)
Definition typeof_object (v : value) : bool :=
  match v with
  | VNull | VArr _ | VObj _ => true
  | _ => false
  end.

(** [Array.isArray(x)] *)
Definition isArray (v : value) : bool :=
  match v with
  | VArr _ => true
  | _ => false
  end.

(* ================================================================== *)
(** ** Property keys and their enumeration order

    [Object.keys] lists the array-index keys first, in ascending numeric
    order, and then the other string keys in the order of their creation.
    An array index is the canonical decimal numeral of an integer below
    [2^32 - 1].  An object is kept as the list of its own enumerable
    properties in that order. *)

Definition key_of_index (n : N) : key :=
  NilEmpty.string_of_uint (N.to_uint n).

Definition is_array_index (k : key) : option N :=
  match NilEmpty.uint_of_string k with
  | Some u =>
      let n := N.of_uint u in
      if (key_of_index n =? k) && (n <? 4294967295)%N then Some n else None
  | None => None
  end.

Definition props (A : Type) := list (key * A).

Definition keys_of {A} (o : props A) : list key := map fst o.

Fixpoint lookup {A} (k : key) (o : props A) : option A :=
  match o with
  | [] => None
  | (k', v) :: r => if k =? k' then Some v else lookup k r
  end.

Definition has_key {A} (k : key) (o : props A) : bool :=
  match lookup k o with
  | Some _ => true
  | None => false
  end.

(** Overwrite the value of an existing key; its position is kept. *)
Fixpoint replace_prop {A} (k : key) (v : A) (o : props A) : props A :=
  match o with
  | [] => []
  | (k', v') :: r =>
      if k =? k' then (k', v) :: r else (k', v') :: replace_prop k v r
  end.

(** Create array-index key [k] (numeric value [n]): it goes after the
    smaller indices and before the larger ones and the string keys. *)
Fixpoint insert_index {A} (n : N) (k : key) (v : A) (o : props A) : props A :=
  match o with
  | [] => [(k, v)]
  | (k', v') :: r =>
      match is_array_index k' with
      | Some m =>
          if (n <? m)%N then (k, v) :: o else (k', v') :: insert_index n k v r
      | None => (k, v) :: o
      end
  end.

(** [o[k] = v] on an ordinary object, for a key other than [__proto__]
    (which an assignment treats specially and the healers never write), and
    the definition of property [k] by a spread. *)
Definition obj_set {A} (k : key) (v : A) (o : props A) : props A :=
  if has_key k o then replace_prop k v o
  else
    match is_array_index k with
    | Some n => insert_index n k v o
    | None => o ++ [(k, v)]
    end.

(** [{ ...acc, ...src }]: every own property of [src] is defined on a copy
    of [acc], in the order [src] enumerates them. *)
Definition spread {A} (acc src : props A) : props A :=
  fold_left (fun a kv => obj_set (fst kv) (snd kv) a) src acc.

(** [k] comes before [k'] in the enumeration order whenever both are
    present. *)
Definition precedes (k k' : key) : bool :=
  match is_array_index k, is_array_index k' with
  | Some n, Some m => (n <? m)%N
  | Some _, None => true
  | None, Some _ => false
  | None, None => true
  end.

(** A key list is in enumeration order: no key twice, every key before all
    the later ones. *)
Fixpoint canonical (ks : list key) : bool :=
  match ks with
  | [] => true
  | k :: r =>
      negb (existsb (String.eqb k) r) && forallb (precedes k) r && canonical r
  end.

(** The own enumerable properties of a value: those of an object, the
    elements of an array under their indices. *)
Fixpoint index_entries (i : N) (l : list value) : props value :=
  match l with
  | [] => []
  | x :: r => (key_of_index i, x) :: index_entries (N.succ i) r
  end.

Definition own_entries (raw : value) : props value :=
  match raw with
  | VObj o => o
  | VArr l => index_entries 0 l
  | _ => []
  end.

(** [Object.keys(raw)] *)
Definition Object_keys (raw : value) : list key := keys_of (own_entries raw).

(** The members every object inherits from [Object.prototype]; [VFun]
    names a built-in function.  The prototype objects themselves have no
    enumerable property: [Object.prototype] is seen as an empty object and
    [Array.prototype], which is an array, as an empty array. *)
Definition object_method_names : list key :=
  ["__defineGetter__"; "__defineSetter__"; "hasOwnProperty";
   "__lookupGetter__"; "__lookupSetter__"; "isPrototypeOf";
   "propertyIsEnumerable"; "toString"; "valueOf"; "toLocaleString"].

Definition object_member (k : key) : option value :=
  if k =? "__proto__" then Some (VObj [])
  else if k =? "constructor" then Some (VFun "Object")
  else if existsb (String.eqb k) object_method_names
       then Some (VFun ("Object.prototype." ++ k))
       else None.

(** The members an array inherits: those of [Array.prototype] (ECMAScript
    2023), then those of [Object.prototype] it does not override. *)
Definition array_method_names : list key :=
  ["at"; "concat"; "copyWithin"; "entries"; "every"; "fill"; "filter";
   "find"; "findIndex"; "findLast"; "findLastIndex"; "flat"; "flatMap";
   "forEach"; "includes"; "indexOf"; "join"; "keys"; "lastIndexOf"; "map";
   "pop"; "push"; "reduce"; "reduceRight"; "reverse"; "shift"; "slice";
   "some"; "sort"; "splice"; "toLocaleString"; "toReversed"; "toSorted";
   "toSpliced"; "toString"; "unshift"; "values"; "with"].

Definition array_member (k : key) : option value :=
  if k =? "__proto__" then Some (VArr [])
  else if k =? "constructor" then Some (VFun "Array")
  else if existsb (String.eqb k) array_method_names
       then Some (VFun ("Array.prototype." ++ k))
       else object_member k.

(** What a read finds on the prototype chain, [undefined] when nothing. *)
Definition inherited (member : option value) : value :=
  match member with
  | Some v => v
  | None => VUndefined
  end.

(** [raw[k]] for an object or an array (the healers read the properties
    of nothing else): the own property, an array's [length], or the
    inherited member. *)
Definition get (raw : value) (k : key) : value :=
  match raw with
  | VObj o =>
      match lookup k o with
      | Some v => v
      | None => inherited (object_member k)
      end
  | VArr l =>
      match is_array_index k with
      | Some n => nth (N.to_nat n) l VUndefined
      | None =>
          if k =? "length" then VNum (Z.of_nat (List.length l))
          else inherited (array_member k)
      end
  | _ => VUndefined
  end.

(** [raw[i]] for an array and a numeric index. *)
Definition at_index (l : list value) (i : nat) : value := nth i l VUndefined.

(** [for (let i = 0; i < length; ++i) body(i)]: [n] turns are left and the
    next one is turn [i]; the body acts on the loop state, and a throw in
    the body leaves the loop. *)
Fixpoint for_range {S} (n i : nat) (body : nat -> S -> outcome S) (s : S)
  : outcome S :=
  match n with
  | O => Return s
  | Datatypes.S n' => s' <- body i s ;; for_range n' (Datatypes.S i) body s'
  end.

(** [for (const x of l) body(x)] *)
Fixpoint for_of {A S} (l : list A) (body : A -> S -> outcome S) (s : S)
  : outcome S :=
  match l with
  | [] => Return s
  | x :: r => s' <- body x s ;; for_of r body s'
  end.

(* ================================================================== *)
(** ** The toolkit the healers are built on (package [cleaners]) *)

(** Modelled from the spec: [asMaybe] is imported from the package
    [cleaners], which is not part of this repository.  Its contract
    (section 6): given a validator and a default, the validator that
    substitutes the default on failure.  It substitutes whatever default it
    is given: the healers that drop a slot test the fallback entry for null
    themselves, before they call it.  The contract says nothing of a
    default that is a function; the package calls such a default where this
    definition hands it back, so nothing is claimed below of a default read
    off a prototype. *)
Definition asMaybe (cleaner : Cleaner) (fallback : value) : Cleaner :=
  fun raw => try_catch (cleaner raw) (Return fallback).

(** [shape[key]] called as a function; calling a missing property throws. *)
Definition call_prop (shape : props Cleaner) (k : key) : Cleaner :=
  match lookup k shape with
  | Some c => c
  | None => fun _ => Throw
  end.

(** [fallback[key]] on a plain object: the own property or the member
    inherited from [Object.prototype]. *)
Definition prop (o : props value) (k : key) : value :=
  match lookup k o with
  | Some v => v
  | None => inherited (object_member k)
  end.

(** Modelled from the spec: [asObject] is imported from the package
    [cleaners], which is not part of this repository.  Its contract
    (section 6) is the record validator: it fails on null and on input that
    is not an object, and otherwise validates each declared field, ignoring
    the extra input fields; a failing field fails the record.  A list is an
    object ([typeof] gives ['object'] for it) and its fields are read like
    those of any object. *)
Definition asObject (shape : props Cleaner) : Cleaner :=
  fun raw =>
    if negb (typeof_object raw) || is_nullish raw then Throw
    else
      out <- for_of (keys_of shape)
               (fun k out => v <- call_prop shape k (get raw k) ;;
                             Return (obj_set k v out))
               [] ;;
      Return (VObj out).

(* ================================================================== *)
(** ** asHealingObject *)

(** [fallback?.[key]] *)
Definition fallback_prop (fallback : option (props value)) (k : key) : value :=
  match fallback with
  | Some fb => prop fb k
  | None => VUndefined
  end.

(** The keys the open mode iterates:
    [fallback == null ? Object.keys(raw)
                      : Object.keys({ ...raw, ...fallback })] *)
Definition enumerated_keys (fallback : option (props value)) (raw : value)
  : list key :=
  match fallback with
  | None => Object_keys raw
  | Some fb => keys_of (spread (spread [] (own_entries raw)) fb)
  end.

(** One turn of the loop of [asMaybeObject]. *)
Definition object_step (shape : Cleaner) (fallback : option (props value))
  (raw : value) (k : key) (out : props value) : outcome (props value) :=
  if k =? "__proto__" then Return out
  else if is_nullish (fallback_prop fallback k) then
    try_catch (v <- shape (get raw k) ;; Return (obj_set k v out)) (Return out)
  else
    v <- asMaybe shape (fallback_prop fallback k) (get raw k) ;;
    Return (obj_set k v out).

(** The open (key-value) mode: the cleaner built when [shape] is a
    function. *)
Definition asMaybeObject (shape : Cleaner) (fallback : option (props value))
  : Cleaner :=
  fun raw =>
    if negb (typeof_object raw) || is_nullish raw then Return (VObj [])
    else
      let keys := enumerated_keys fallback raw in
      out <- for_range (List.length keys) 0
               (fun i out => object_step shape fallback raw (nth i keys "") out)
               [] ;;
      Return (VObj out).

(** The closed (shape) mode: every field cleaner is guarded by its
    fallback, and so is the record cleaner. *)
Definition safeShape (shape : props Cleaner) (fallback : props value)
  : props Cleaner :=
  fold_left
    (fun safe k =>
       obj_set k (asMaybe (call_prop shape k) (prop fallback k)) safe)
    (keys_of shape) (spread [] shape).

Definition asHealingShape (shape : props Cleaner) (fallback : props value)
  : Cleaner :=
  asMaybe (asObject (safeShape shape fallback)) (VObj fallback).

(** The two overloads of [asHealingObject]; the fallback is optional in the
    first and required in the second. *)
Inductive object_overload : Type :=
| KeyValue (cleaner : Cleaner) (fallback : option (props value))
| Shape (shape : props Cleaner) (fallback : props value).

Definition asHealingObject (args : object_overload) : Cleaner :=
  match args with
  | KeyValue cleaner fallback => asMaybeObject cleaner fallback
  | Shape shape fallback => asHealingShape shape fallback
  end.

(* ================================================================== *)
(** ** asHealingArray *)

(** The elements of an array value. *)
Definition elements (raw : value) : list value :=
  match raw with
  | VArr l => l
  | _ => []
  end.

(** [fallback?.[i]] *)
Definition fallback_at (fallback : option (list value)) (i : nat) : value :=
  match fallback with
  | Some fb => at_index fb i
  | None => VUndefined
  end.

(** [fallback?.length ?? 0] *)
Definition fallback_length (fallback : option (list value)) : nat :=
  match fallback with
  | Some fb => List.length fb
  | None => 0
  end.

(** One turn of the loop of [asMaybeArray]; [out.push(x)] appends. *)
Definition array_step (cleaner : Cleaner) (fallback : option (list value))
  (raw : list value) (i : nat) (out : list value) : outcome (list value) :=
  if is_nullish (fallback_at fallback i) then
    try_catch (v <- cleaner (at_index raw i) ;; Return (out ++ [v]))
              (Return out)
  else
    v <- asMaybe cleaner (fallback_at fallback i) (at_index raw i) ;;
    Return (out ++ [v]).

Definition asMaybeArray (cleaner : Cleaner) (fallback : option (list value))
  : Cleaner :=
  fun raw =>
    if negb (isArray raw) then Return (VArr [])
    else
      let len :=
        Nat.max (List.length (elements raw)) (fallback_length fallback) in
      out <- for_range len 0 (array_step cleaner fallback (elements raw)) [] ;;
      Return (VArr out).

Definition asHealingArray (cleaner : Cleaner) (fallback : option (list value))
  : Cleaner :=
  asMaybeArray cleaner fallback.

(** The earlier, one-argument [asHealingArray]. *)
Module Plain.

Definition asHealingArrayCleaner (cleaner : Cleaner) : Cleaner :=
  fun raw =>
    if negb (isArray raw) then Return (VArr [])
    else
      out <- for_of (elements raw)
               (fun item out =>
                  try_catch (v <- cleaner item ;; Return (out ++ [v]))
                            (Return out))
               [] ;;
      Return (VArr out).

Definition asHealingArray (cleaner : Cleaner) : Cleaner :=
  asHealingArrayCleaner cleaner.

End Plain.

(* ================================================================== *)
(** ** asHealingTuple *)

Definition asMaybeTuple (cleaner : Cleaner) (fallback : list value) : Cleaner :=
  fun raw =>
    if negb (isArray raw) then Return (VArr fallback)
    else
      out <- for_range (List.length fallback) 0
               (fun i out =>
                  v <- asMaybe cleaner (at_index fallback i)
                         (at_index (elements raw) i) ;;
                  Return (out ++ [v]))
               [] ;;
      Return (VArr out).

Definition asHealingTuple (cleaner : Cleaner) (fallback : list value)
  : Cleaner :=
  asMaybeTuple cleaner fallback.

(* ================================================================== *)
(** ** Sample cleaners and inputs *)

(** [asNumber]: accepts numbers only. *)
Definition asNumber : Cleaner :=
  fun raw => match raw with VNum n => Return (VNum n) | _ => Throw end.

(** [asString]: accepts strings only. *)
Definition asString : Cleaner :=
  fun raw => match raw with VStr s => Return (VStr s) | _ => Throw end.

(* ================================================================== *)
(** ** The vocabulary of the specification *)

(** What the open mode decides for key [k]: nothing for the reserved key;
    without a usable fallback entry the cleaned value, or nothing when the
    cleaner fails; with a usable entry the cleaned value or that entry. *)
Definition healed_field (shape : Cleaner) (fallback : option (props value))
  (raw : value) (k : key) : option value :=
  if k =? "__proto__" then None
  else
    match shape (get raw k) with
    | Return v => Some v
    | Throw =>
        if is_nullish (fallback_prop fallback k) then None
        else Some (fallback_prop fallback k)
    end.

Definition write_field {A} (f : key -> option A) (out : props A) (k : key)
  : props A :=
  match f k with
  | Some v => obj_set k v out
  | None => out
  end.

(** What the open mode returns on an object: the decided fields, written
    in the order of the enumerated keys. *)
Definition healed_object (shape : Cleaner) (fallback : option (props value))
  (raw : value) : props value :=
  fold_left (write_field (healed_field shape fallback raw))
    (enumerated_keys fallback raw) [].


(** What index [i] contributes to the healed array: the cleaned element,
    else the usable fallback entry, else nothing. *)
Definition healed_slot (cleaner : Cleaner) (fallback : option (list value))
  (raw : list value) (i : nat) : list value :=
  match cleaner (at_index raw i) with
  | Return v => [v]
  | Throw =>
      if is_nullish (fallback_at fallback i) then []
      else [fallback_at fallback i]
  end.

(** What the closed mode returns on an object: every field of the shape,
    in the order of the shape, holding the cleaned value or the default. *)
Definition healed_record (shape : props Cleaner) (fallback : props value)
  (raw : value) : props value :=
  map (fun k => (k, match call_prop shape k (get raw k) with
                    | Return v => v
                    | Throw => prop fallback k
                    end))
      (keys_of shape).

(** A cleaner fixes its own outputs. *)
Definition fixes_outputs (c : Cleaner) : Prop :=
  forall x v, c x = Return v -> c v = Return v.

(** A cleaner leaves a value as it is: it returns it unchanged or rejects
    it. *)
Definition settled (c : Cleaner) (v : value) : Prop :=
  c v = Return v \/ c v = Throw.

(** Element [x] at index [i] is kept as it is by one more healing. *)
Definition kept_at (c : Cleaner) (fallback : option (list value)) (i : nat)
  (x : value) : Prop :=
  c x = Return x \/
  (c x = Throw /\ x = fallback_at fallback i /\
   is_nullish (fallback_at fallback i) = false).

(** A cleaner that changes what it accepts: the absolute value of a
    number. *)
Definition asMagnitude : Cleaner :=
  fun raw => match raw with VNum n => Return (VNum (Z.abs n)) | _ => Throw end.

(** A cleaner that accepts [undefined] beside numbers, as an optional
    number does. *)
Definition asOptionalNumber : Cleaner :=
  fun raw =>
    match raw with
    | VUndefined => Return VUndefined
    | VNum n => Return (VNum n)
    | _ => Throw
    end.

(** The own property of [o] under [k], [undefined] when [o] has none. *)
Definition own_or_undefined (o : props value) (k : key) : value :=
  match lookup k o with
  | Some v => v
  | None => VUndefined
  end.

(** The own entry of the fallback map under [k], if any. *)
Definition own_entry (fallback : option (props value)) (k : key)
  : option value :=
  match fallback with
  | Some fb => lookup k fb
  | None => None
  end.

(** What an element contributes when no fallback entry covers it: its
    cleaned value, or nothing. *)
Definition cleaned (c : Cleaner) (x : value) : list value :=
  match c x with
  | Return v => [v]
  | Throw => []
  end.

(** The entries of a fallback list that are defined and non-null. *)
Definition usable_entries (fb : list value) : list value :=
  filter (fun v => negb (is_nullish v)) fb.

(** The property kept for key [k], if any. *)
Definition kept_field {A} (f : key -> option A) (k : key) : props A :=
  match f k with
  | Some v => [(k, v)]
  | None => []
  end.

(** The entries of a fallback map that the open mode can use. *)
Definition usable_props (fb : props value) : props value :=
  filter (fun kv => negb (fst kv =? "__proto__") && negb (is_nullish (snd kv)))
    fb.

(* ================================================================== *)
(** * Properties of the object model *)

Lemma is_array_index_key (k : key) (n : N) :
  is_array_index k = Some n -> k = key_of_index n.
Proof.
  unfold is_array_index.
  destruct (NilEmpty.uint_of_string k) as [u|]; [|discriminate].
  cbv zeta.
  destruct (key_of_index (N.of_uint u) =? k) eqn:E; simpl; [|discriminate].
  destruct (N.of_uint u <? 4294967295)%N; [|discriminate].
  intros H; injection H as <-. symmetry. now apply String.eqb_eq.
Qed.

Lemma is_array_index_inj (k k' : key) (n : N) :
  is_array_index k = Some n -> is_array_index k' = Some n -> k = k'.
Proof.
  intros H H'. apply is_array_index_key in H, H'. congruence.
Qed.

Lemma precedes_string (k k' : key) :
  is_array_index k' = None -> precedes k k' = true.
Proof.
  unfold precedes. intros ->. now destruct (is_array_index k).
Qed.

Lemma precedes_index (k k' : key) (n : N) :
  is_array_index k' = Some n -> precedes k k' = true ->
  exists m, is_array_index k = Some m /\ (m < n)%N.
Proof.
  unfold precedes. intros ->.
  destruct (is_array_index k) as [m|]; [|discriminate].
  intros H. exists m. split; [reflexivity|]. now apply N.ltb_lt.
Qed.

Lemma precedes_trans (a b c : key) :
  precedes a b = true -> precedes b c = true -> precedes a c = true.
Proof.
  unfold precedes.
  destruct (is_array_index a), (is_array_index b), (is_array_index c);
    try congruence.
  rewrite !N.ltb_lt. lia.
Qed.

Lemma canonical_cons (k : key) (r : list key) :
  canonical (k :: r) = true <->
  ~ In k r /\ (forall x, In x r -> precedes k x = true) /\ canonical r = true.
Proof.
  simpl. rewrite !andb_true_iff, negb_true_iff, forallb_forall.
  split.
  - intros [[Hn Hp] Hc]. repeat split; auto.
    intros Hin. assert (existsb (String.eqb k) r = true) as E.
    { apply existsb_exists. exists k.
      split; [assumption|apply String.eqb_refl]. }
    congruence.
  - intros (Hn & Hp & Hc). repeat split; auto.
    destruct (existsb (String.eqb k) r) eqn:E; [|reflexivity].
    apply existsb_exists in E as (x & Hin & Hx).
    apply String.eqb_eq in Hx. subst x. contradiction.
Qed.

Lemma canonical_snoc (ks : list key) (k : key) :
  canonical (ks ++ [k]) = true <->
  canonical ks = true /\ ~ In k ks /\
  (forall x, In x ks -> precedes x k = true).
Proof.
  induction ks as [|a r IH].
  - simpl. intuition.
  - change ((a :: r) ++ [k]) with (a :: (r ++ [k])).
    rewrite !canonical_cons, IH. split.
    + intros (Hn & Hp & Hc & Hk & Hq). repeat split.
      * intros Hin. apply Hn. apply in_or_app. now left.
      * intros x Hx. apply Hp. apply in_or_app. now left.
      * assumption.
      * intros [->|Hin]; [|contradiction].
        apply Hn. apply in_or_app. right. now left.
      * intros x [->|Hx]; [|now apply Hq].
        apply Hp. apply in_or_app. right. now left.
    + intros ((Hn & Hp & Hc) & Hk & Hq). repeat split.
      * intros Hin. apply in_app_or in Hin as [Hin|[->|[]]]; [contradiction|].
        apply Hk. now left.
      * intros x Hx. apply in_app_or in Hx as [Hx|[<-|[]]]; [now apply Hp|].
        apply Hq. now left.
      * assumption.
      * intros Hin. apply Hk. now right.
      * intros x Hx. apply Hq. now right.
Qed.

Lemma canonical_app_l (a b : list key) :
  canonical (a ++ b) = true -> canonical a = true.
Proof.
  induction a as [|k r IH]; [reflexivity|].
  change ((k :: r) ++ b) with (k :: (r ++ b)).
  rewrite !canonical_cons. intros (Hn & Hp & Hc). repeat split.
  - intros Hin. apply Hn. apply in_or_app. now left.
  - intros x Hx. apply Hp. apply in_or_app. now left.
  - now apply IH.
Qed.

Lemma canonical_NoDup (ks : list key) : canonical ks = true -> NoDup ks.
Proof.
  induction ks as [|k r IH]; [constructor|].
  rewrite canonical_cons. intros (Hn & _ & Hc). constructor; auto.
Qed.

Section Props.
Context {A : Type}.
Implicit Types (o : props A) (k : key) (v : A).

Lemma keys_of_app o o' : keys_of (o ++ o') = keys_of o ++ keys_of o'.
Proof. apply map_app. Qed.

Lemma lookup_None k o : lookup k o = None <-> ~ In k (keys_of o).
Proof.
  induction o as [|[k' v'] r IH]; simpl.
  - intuition.
  - destruct (k =? k') eqn:E.
    + apply String.eqb_eq in E. subst. split; [discriminate|]. intuition.
    + apply String.eqb_neq in E. rewrite IH. intuition congruence.
Qed.

Lemma has_key_true k o : has_key k o = true <-> In k (keys_of o).
Proof.
  unfold has_key. pose proof (lookup_None k o) as H.
  destruct (lookup k o).
  - split; [|reflexivity]. intros _.
    destruct (in_dec string_dec k (keys_of o)) as [Hin|Hn]; [assumption|].
    apply H in Hn. discriminate.
  - split; [discriminate|]. intros Hin. now apply H in Hin.
Qed.

Lemma has_key_false k o : has_key k o = false <-> ~ In k (keys_of o).
Proof.
  rewrite <- has_key_true. destruct (has_key k o); intuition congruence.
Qed.

Lemma keys_replace_prop k v o : keys_of (replace_prop k v o) = keys_of o.
Proof.
  induction o as [|[k' v'] r IH]; simpl; [reflexivity|].
  destruct (k =? k'); simpl; [reflexivity|]. now rewrite IH.
Qed.

Lemma lookup_replace_prop k k' v o :
  lookup k (replace_prop k' v o) =
  if (k =? k') && has_key k' o then Some v else lookup k o.
Proof.
  induction o as [|[a w] r IH]; simpl.
  - now rewrite andb_false_r.
  - unfold has_key in *. simpl. destruct (k' =? a) eqn:E; simpl.
    + apply String.eqb_eq in E. subst a.
      destruct (k =? k'); reflexivity.
    + rewrite IH. destruct (k =? a) eqn:E2; [|reflexivity].
      apply String.eqb_eq in E2. subst a.
      destruct (k =? k') eqn:E3; [|reflexivity].
      apply String.eqb_eq in E3. subst k'.
      rewrite String.eqb_refl in E. discriminate.
Qed.

Lemma keys_insert_index n k v o :
  forall x, In x (keys_of (insert_index n k v o)) <-> x = k \/ In x (keys_of o).
Proof.
  induction o as [|[a w] r IH]; intros x; simpl.
  - intuition.
  - destruct (is_array_index a) as [m|]; [destruct (n <? m)%N|]; simpl;
      try rewrite IH; intuition.
Qed.

Lemma lookup_insert_index n k k' v o :
  has_key k' o = false ->
  lookup k (insert_index n k' v o) = if k =? k' then Some v else lookup k o.
Proof.
  induction o as [|[a w] r IH]; simpl; intros Hk.
  - reflexivity.
  - assert (k' <> a /\ has_key k' r = false) as [Hne Hr].
    { unfold has_key in *. simpl in Hk. destruct (k' =? a) eqn:E.
      - discriminate.
      - apply String.eqb_neq in E. now split. }
    destruct (is_array_index a) as [m|]; [destruct (n <? m)%N|]; simpl;
      try reflexivity.
    rewrite (IH Hr). destruct (k =? a) eqn:E; [|reflexivity].
    apply String.eqb_eq in E. subst a.
    apply String.eqb_neq in Hne. rewrite String.eqb_sym in Hne.
    now rewrite Hne.
Qed.

Lemma lookup_app k o o' :
  lookup k (o ++ o') =
  match lookup k o with Some v => Some v | None => lookup k o' end.
Proof.
  induction o as [|[a w] r IH]; simpl; [reflexivity|].
  destruct (k =? a); [reflexivity|apply IH].
Qed.

(** Reading back what [o[k'] = v] wrote. *)
Lemma lookup_obj_set k k' v o :
  lookup k (obj_set k' v o) = if k =? k' then Some v else lookup k o.
Proof.
  unfold obj_set. destruct (has_key k' o) eqn:Hk.
  - rewrite lookup_replace_prop, Hk, andb_true_r. reflexivity.
  - destruct (is_array_index k') as [n|].
    + now apply lookup_insert_index.
    + rewrite lookup_app. simpl. destruct (k =? k') eqn:E.
      * apply String.eqb_eq in E. subst k'.
        unfold has_key in Hk. now destruct (lookup k o).
      * now destruct (lookup k o).
Qed.

Lemma keys_obj_set k v o :
  forall x, In x (keys_of (obj_set k v o)) <-> x = k \/ In x (keys_of o).
Proof.
  intros x. unfold obj_set. destruct (has_key k o) eqn:Hk.
  - rewrite keys_replace_prop. apply has_key_true in Hk.
    intuition congruence.
  - destruct (is_array_index k) as [n|].
    + apply keys_insert_index.
    + rewrite keys_of_app, in_app_iff. simpl. intuition.
Qed.

Lemma insert_index_canonical n k v o :
  is_array_index k = Some n -> ~ In k (keys_of o) ->
  canonical (keys_of o) = true ->
  canonical (keys_of (insert_index n k v o)) = true.
Proof.
  intros Hk. induction o as [|[a w] r IH]; intros Hn Hc.
  - reflexivity.
  - simpl in Hn, Hc. change (keys_of ((a, w) :: r)) with (a :: keys_of r) in *.
    pose proof Hc as Hc0.
    apply canonical_cons in Hc as (Ha & Hp & Hr). simpl.
    destruct (is_array_index a) as [m|] eqn:Ea.
    + destruct (n <? m)%N eqn:Enm.
      * change (canonical (k :: a :: keys_of r) = true).
        apply canonical_cons. repeat split; [exact Hn| |exact Hc0].
        assert (precedes k a = true) as Hka.
        { unfold precedes. now rewrite Hk, Ea. }
        intros x [<-|Hx]; [exact Hka|].
        apply precedes_trans with a; auto.
      * change (canonical (a :: keys_of (insert_index n k v r)) = true).
        apply canonical_cons. repeat split.
        -- rewrite keys_insert_index. intros [->|Hin]; [|contradiction].
           apply Hn. now left.
        -- intros x Hx. apply keys_insert_index in Hx as [->|Hx]; [|auto].
           unfold precedes. rewrite Ea, Hk. apply N.ltb_lt.
           apply N.ltb_ge in Enm.
           assert (m <> n) as Hmn.
           { intros ->. apply Hn. left.
             now apply is_array_index_inj with n. }
           lia.
        -- apply IH; [|exact Hr]. intros Hin. apply Hn. now right.
    + change (canonical (k :: a :: keys_of r) = true).
      apply canonical_cons. repeat split; [exact Hn| |exact Hc0].
      intros x [<-|Hx]; [now apply precedes_string|].
      apply precedes_string.
      specialize (Hp x Hx). unfold precedes in Hp. rewrite Ea in Hp.
      destruct (is_array_index x); [discriminate|reflexivity].
Qed.

(** Writing a property keeps the properties in enumeration order. *)
Lemma obj_set_canonical k v o :
  canonical (keys_of o) = true -> canonical (keys_of (obj_set k v o)) = true.
Proof.
  intros Hc. unfold obj_set. destruct (has_key k o) eqn:Hk.
  - now rewrite keys_replace_prop.
  - apply has_key_false in Hk. destruct (is_array_index k) as [n|] eqn:Ek.
    + now apply insert_index_canonical.
    + rewrite keys_of_app. apply canonical_snoc. repeat split; auto.
      intros x _. now apply precedes_string.
Qed.

Lemma insert_index_last n k v o :
  is_array_index k = Some n ->
  (forall x, In x (keys_of o) -> precedes x k = true) ->
  insert_index n k v o = o ++ [(k, v)].
Proof.
  intros Hk. induction o as [|[a w] r IH]; intros Hp; [reflexivity|].
  simpl. destruct (@precedes_index a k n Hk) as (m & Ea & Hm).
  { apply Hp. now left. }
  rewrite Ea. assert ((n <? m)%N = false) as -> by (apply N.ltb_ge; lia).
  f_equal. apply IH. intros x Hx. apply Hp. now right.
Qed.

(** Creating the property that is last in enumeration order appends it. *)
Lemma obj_set_snoc k v o :
  canonical (keys_of (o ++ [(k, v)])) = true ->
  obj_set k v o = o ++ [(k, v)].
Proof.
  rewrite keys_of_app. change (keys_of [(k, v)]) with [k]. intros Hc.
  apply canonical_snoc in Hc as (Hc & Hn & Hp).
  unfold obj_set. apply has_key_false in Hn. rewrite Hn.
  destruct (is_array_index k) as [n|] eqn:Ek; [|reflexivity].
  now apply insert_index_last.
Qed.

Lemma spread_canonical_app o o' :
  canonical (keys_of (o ++ o')) = true -> spread o o' = o ++ o'.
Proof.
  revert o. induction o' as [|[k v] r IH]; intros o Hc.
  - simpl. now rewrite app_nil_r.
  - unfold spread in *. simpl.
    replace (o ++ (k, v) :: r) with ((o ++ [(k, v)]) ++ r) in *
      by (rewrite <- app_assoc; reflexivity).
    rewrite obj_set_snoc.
    + now apply IH.
    + rewrite keys_of_app in Hc. now apply canonical_app_l in Hc.
Qed.

(** [{ ...o }] is a copy of [o]. *)
Lemma spread_copy o : canonical (keys_of o) = true -> spread [] o = o.
Proof. intros Hc. now apply (spread_canonical_app []). Qed.

Lemma spread_keeps_canonical o o' :
  canonical (keys_of o) = true -> canonical (keys_of (spread o o')) = true.
Proof.
  revert o. induction o' as [|[k v] r IH]; intros o Hc; [assumption|].
  unfold spread in *. simpl. apply IH. now apply obj_set_canonical.
Qed.

Lemma keys_spread o o' :
  forall x, In x (keys_of (spread o o')) <->
            In x (keys_of o) \/ In x (keys_of o').
Proof.
  revert o. induction o' as [|[k v] r IH]; intros o x.
  - simpl. intuition.
  - unfold spread in *. simpl. rewrite IH, keys_obj_set. intuition.
Qed.

End Props.

(* ================================================================== *)
(** * Loops *)

Lemma for_range_for_of {A S} (d : A) (f : A -> S -> outcome S)
  (l pre : list A) (s : S) :
  for_range (List.length l) (List.length pre)
    (fun i => f (nth i (pre ++ l) d)) s
  = for_of l f s.
Proof.
  revert pre s. induction l as [|x r IH]; intros pre s; [reflexivity|].
  simpl. rewrite nth_middle. destruct (f x s) as [s'|]; simpl; [|reflexivity].
  specialize (IH (pre ++ [x]) s').
  rewrite <- app_assoc, length_app, Nat.add_1_r in IH. exact IH.
Qed.

Lemma for_of_pure {A S} (body : A -> S -> outcome S) (g : S -> A -> S)
  (l : list A) (s : S) :
  (forall x t, body x t = Return (g t x)) ->
  for_of l body s = Return (fold_left g l s).
Proof.
  intros Hb. revert s. induction l as [|x r IH]; intros s; [reflexivity|].
  simpl. rewrite Hb. simpl. apply IH.
Qed.

Lemma for_range_pure {S} (body : nat -> S -> outcome S) (g : S -> nat -> S)
  (n i : nat) (s : S) :
  (forall j t, body j t = Return (g t j)) ->
  for_range n i body s = Return (fold_left g (seq i n) s).
Proof.
  intros Hb. revert i s. induction n as [|n IH]; intros i s; [reflexivity|].
  simpl. rewrite Hb. simpl. apply IH.
Qed.

Lemma fold_left_push {A B} (f : A -> list B) (l : list A) (acc : list B) :
  fold_left (fun out x => out ++ f x) l acc = acc ++ flat_map f l.
Proof.
  revert acc. induction l as [|x r IH]; intros acc; simpl.
  - now rewrite app_nil_r.
  - now rewrite IH, app_assoc.
Qed.

(* ================================================================== *)
(** * The open mode of asHealingObject *)

Lemma object_step_pure shape fallback raw k out :
  object_step shape fallback raw k out =
  Return (write_field (healed_field shape fallback raw) out k).
Proof.
  unfold object_step, write_field, healed_field, asMaybe.
  destruct (k =? "__proto__"); [reflexivity|].
  destruct (is_nullish (fallback_prop fallback k));
    destruct (shape (get raw k)); reflexivity.
Qed.

(** The open mode on an object: the fields decided by [healed_field] are
    written in the order of the enumerated keys. *)
Lemma asMaybeObject_fold shape fallback raw :
  typeof_object raw = true -> is_nullish raw = false ->
  asMaybeObject shape fallback raw =
  Return (VObj (healed_object shape fallback raw)).
Proof.
  intros Ht Hn. unfold asMaybeObject, healed_object. rewrite Ht, Hn. simpl.
  rewrite (for_range_for_of "" (object_step shape fallback raw)
             (enumerated_keys fallback raw) []).
  rewrite (for_of_pure _ (write_field (healed_field shape fallback raw))).
  - reflexivity.
  - intros. apply object_step_pure.
Qed.

Lemma asMaybeObject_not_object shape fallback raw :
  typeof_object raw = false \/ is_nullish raw = true ->
  asMaybeObject shape fallback raw = Return (VObj []).
Proof.
  unfold asMaybeObject. intros [->| ->]; [reflexivity|].
  now rewrite orb_true_r.
Qed.

Lemma lookup_write_other {A} (f : key -> option A) ks k out :
  ~ In k ks -> lookup k (fold_left (write_field f) ks out) = lookup k out.
Proof.
  revert out. induction ks as [|a r IH]; intros out Hn; [reflexivity|].
  simpl. rewrite IH by (intros H; apply Hn; now right).
  unfold write_field. destruct (f a); [|reflexivity].
  rewrite lookup_obj_set.
  assert (k <> a) as Hne by (intros ->; apply Hn; now left).
  apply String.eqb_neq in Hne. now rewrite Hne.
Qed.

Lemma lookup_write_field {A} (f : key -> option A) ks k out :
  In k ks ->
  lookup k (fold_left (write_field f) ks out) =
  match f k with Some v => Some v | None => lookup k out end.
Proof.
  revert out. induction ks as [|a r IH]; intros out Hin; [destruct Hin|].
  simpl. destruct (in_dec string_dec k r) as [Hr|Hr].
  - rewrite IH by assumption. destruct (f k) eqn:Ef; [reflexivity|].
    unfold write_field. destruct (f a) eqn:Ea; [|reflexivity].
    rewrite lookup_obj_set. destruct (k =? a) eqn:E; [|reflexivity].
    apply String.eqb_eq in E. congruence.
  - destruct Hin as [->|Hin]; [|contradiction].
    rewrite lookup_write_other by assumption.
    unfold write_field. destruct (f k); [|reflexivity].
    now rewrite lookup_obj_set, String.eqb_refl.
Qed.

Lemma write_field_canonical {A} (f : key -> option A) ks out :
  canonical (keys_of out) = true ->
  canonical (keys_of (fold_left (write_field f) ks out)) = true.
Proof.
  revert out. induction ks as [|a r IH]; intros out Hc; [assumption|].
  simpl. apply IH. unfold write_field. destruct (f a); [|assumption].
  now apply obj_set_canonical.
Qed.

(** C1 (the code departs from it). The default of a key is read as
    [fallback?.[key]], through the prototype chain.  The fallback map
    [{age: 0}] has no entry under [toString] and the cleaner rejects the raw
    value under that key, so the key should be dropped; but the read finds
    [Object.prototype.toString], which is not null, the loop takes the
    [asMaybe] turn and the output has the key [toString]. *)
Theorem invalid_entry_kept_by_inherited_member :
  let fallback := Some [("age", VNum 0)] in
  let raw := VObj [("toString", VNum 5)] in
  In "toString" (enumerated_keys fallback raw) /\
  lookup "toString" [("age", VNum 0)] = None /\
  asString (VNum 5) = Throw /\
  fallback_prop fallback "toString" = VFun "Object.prototype.toString" /\
  exists out,
    asHealingObject (KeyValue asString fallback) raw = Return (VObj out) /\
    has_key "toString" out = true.
Proof.
  repeat split.
  - vm_compute. now left.
  - eexists. split; reflexivity.
Qed.

(** C9. Open mode of asHealingObject: whatever the raw input, the cleaner and
    the fallback map, the output has no own key named [__proto__]. *)
Theorem open_mode_never_emits_proto
  (shape : Cleaner) (fallback : option (props value)) (raw : value) :
  exists out,
    asHealingObject (KeyValue shape fallback) raw = Return (VObj out) /\
    ~ In "__proto__" (keys_of out) /\
    lookup "__proto__" out = None.
Proof.
  simpl.
  assert (forall ks,
             lookup "__proto__"
               (fold_left (write_field (healed_field shape fallback raw)) ks [])
             = None) as Hproto.
  { intros ks. destruct (in_dec string_dec "__proto__" ks) as [Hin|Hn].
    - now rewrite lookup_write_field by assumption.
    - now rewrite lookup_write_other by assumption. }
  destruct (typeof_object raw) eqn:Ht; [destruct (is_nullish raw) eqn:Hn|].
  - rewrite asMaybeObject_not_object by now right.
    exists []. repeat split. intros [].
  - rewrite asMaybeObject_fold by assumption. unfold healed_object.
    eexists. split; [reflexivity|]. rewrite <- lookup_None. split; apply Hproto.
  - rewrite asMaybeObject_not_object by now left.
    exists []. repeat split. intros [].
Qed.

(* ------------------------------------------------------------------ *)
(** ** Key enumeration *)

Lemma has_key_obj_set {A} (x k : key) (v : A) (o : props A) :
  has_key x (obj_set k v o) = if x =? k then true else has_key x o.
Proof.
  unfold has_key. rewrite lookup_obj_set. now destruct (x =? k).
Qed.

(** Spreading [fb] over [acc] when every key it adds is a string key: the
    keys of [acc] stay in place and the new keys follow in the order of
    [fb]. *)
Lemma spread_keys_string {A} (fb acc : props A) :
  NoDup (keys_of fb) ->
  (forall k, In k (keys_of fb) -> ~ In k (keys_of acc) ->
             is_array_index k = None) ->
  keys_of (spread acc fb) =
  keys_of acc ++ filter (fun k => negb (has_key k acc)) (keys_of fb).
Proof.
  revert acc. induction fb as [|[k v] r IH]; intros acc Hnd Hstr.
  - simpl. now rewrite app_nil_r.
  - change (keys_of ((k, v) :: r)) with (k :: keys_of r) in *.
    inversion Hnd as [|? ? Hk Hr]; subst.
    change (spread acc ((k, v) :: r)) with (spread (obj_set k v acc) r).
    assert (forall x, In x (keys_of r) ->
                      has_key x (obj_set k v acc) = has_key x acc) as Hsame.
    { intros x Hx. rewrite has_key_obj_set.
      destruct (x =? k) eqn:E; [|reflexivity].
      apply String.eqb_eq in E. subst x. contradiction. }
    rewrite IH; [|assumption|].
    + rewrite (filter_ext_in _ (fun x => negb (has_key x acc)))
        by (intros x Hx; now rewrite Hsame).
      simpl. unfold obj_set. destruct (has_key k acc) eqn:Hka; simpl.
      * now rewrite keys_replace_prop.
      * rewrite (Hstr k) by (try apply has_key_false; auto; now left).
        rewrite keys_of_app, <- app_assoc. reflexivity.
    + intros x Hx Hnx. apply Hstr; [now right|].
      intros Hin. apply Hnx. apply keys_obj_set. now right.
Qed.




(* ------------------------------------------------------------------ *)
(** ** Inputs of the wrong kind *)

Lemma asMaybeArray_not_array cleaner fallback raw :
  isArray raw = false -> asMaybeArray cleaner fallback raw = Return (VArr []).
Proof. unfold asMaybeArray. now intros ->. Qed.

Lemma asMaybeTuple_not_array cleaner fallback raw :
  isArray raw = false ->
  asMaybeTuple cleaner fallback raw = Return (VArr fallback).
Proof. unfold asMaybeTuple. now intros ->. Qed.

Lemma not_array_isArray raw : (forall l, raw <> VArr l) -> isArray raw = false.
Proof. destruct raw; try reflexivity. intros H. now destruct (H items). Qed.

(** A raw input that is null, undefined, a scalar or a function gives an
    empty map in the open mode of asHealingObject; a raw input that is not a
    list gives an empty list in asHealingArray, with or without fallback,
    and the fallback template in asHealingTuple. *)
Lemma rejected_inputs (shape : Cleaner) (raw : value) :
  ((forall l, raw <> VArr l) -> (forall o, raw <> VObj o) ->
   forall fallback,
     asHealingObject (KeyValue shape fallback) raw = Return (VObj [])) /\
  ((forall l, raw <> VArr l) ->
   (forall fallback, asHealingArray shape fallback raw = Return (VArr [])) /\
   Plain.asHealingArray shape raw = Return (VArr []) /\
   (forall template,
       asHealingTuple shape template raw = Return (VArr template))).
Proof.
  repeat split.
  - intros Harr Hobj fallback. simpl. apply asMaybeObject_not_object.
    destruct raw; simpl; auto.
    + now destruct (Harr items).
    + now destruct (Hobj entries).
  - intros fallback. apply asMaybeArray_not_array. now apply not_array_isArray.
  - unfold Plain.asHealingArray, Plain.asHealingArrayCleaner.
    now rewrite not_array_isArray.
  - intros template. apply asMaybeTuple_not_array. now apply not_array_isArray.
Qed.

(** C6 (the code departs from it). A list is of the wrong kind for the
    object healer, and the test suite lists [[]] among the inputs that are
    not objects; but [typeof] gives ['object'] for a list, the guard of the
    open mode lets it through and a list that is not empty is healed under
    its index keys. *)
Theorem list_given_to_object_healer :
  typeof_object (VArr [VNum 1; VStr "x"; VNum 3]) = true /\
  Object_keys (VArr [VNum 1; VStr "x"; VNum 3]) = ["0"; "1"; "2"] /\
  asHealingObject (KeyValue asNumber None) (VArr [VNum 1; VStr "x"; VNum 3])
  = Return (VObj [("0", VNum 1); ("2", VNum 3)]) /\
  asHealingObject (KeyValue asNumber None) (VArr [VNum 1; VStr "x"; VNum 3])
  <> Return (VObj []).
Proof.
  repeat split. vm_compute. discriminate.
Qed.

(* ================================================================== *)
(** * asHealingArray *)

Lemma array_step_pure cleaner fallback raw i out :
  array_step cleaner fallback raw i out =
  Return (out ++ healed_slot cleaner fallback raw i).
Proof.
  unfold array_step, healed_slot, asMaybe.
  destruct (is_nullish (fallback_at fallback i));
    destruct (cleaner (at_index raw i)); simpl;
    rewrite ?app_nil_r; reflexivity.
Qed.

(** The healed array is the concatenation of what the indices contribute,
    in iteration order. *)
Lemma asMaybeArray_flat_map cleaner fallback raw :
  asMaybeArray cleaner fallback (VArr raw) =
  Return (VArr (flat_map (healed_slot cleaner fallback raw)
                  (seq 0 (Nat.max (List.length raw)
                                  (fallback_length fallback))))).
Proof.
  unfold asMaybeArray. simpl.
  rewrite (for_range_pure _
             (fun out i => out ++ healed_slot cleaner fallback raw i))
    by (intros; apply array_step_pure).
  simpl. now rewrite fold_left_push.
Qed.

Lemma seq_split (n i : nat) :
  i < n -> seq 0 n = seq 0 i ++ i :: seq (S i) (n - S i).
Proof.
  intros Hi. replace n with (i + S (n - S i)) at 1 by lia.
  now rewrite seq_app.
Qed.

(** C2. asHealingArray with a fallback list, on an array input, at any
    index below [max (len raw) (len fallback)].  The output is the
    concatenation, in iteration order, of what each index contributes; index
    [i] contributes the cleaned element when the cleaner succeeds, the
    fallback entry when the cleaner fails and the entry is defined and
    non-null, and nothing when the cleaner fails without such an entry.  So
    an index with a usable fallback entry is never dropped. *)
Theorem healing_array_with_fallback
  (cleaner : Cleaner) (fallback raw : list value) (i : nat) :
  i < Nat.max (List.length raw) (List.length fallback) ->
  let n := Nat.max (List.length raw) (List.length fallback) in
  let slot := healed_slot cleaner (Some fallback) raw in
  exists out,
    asHealingArray cleaner (Some fallback) (VArr raw) = Return (VArr out) /\
    out = flat_map slot (seq 0 i) ++ slot i ++
          flat_map slot (seq (S i) (n - S i)) /\
    (forall v, cleaner (at_index raw i) = Return v ->
               slot i = [v] /\ In v out) /\
    (cleaner (at_index raw i) = Throw ->
     is_nullish (at_index fallback i) = false ->
     slot i = [at_index fallback i] /\ In (at_index fallback i) out) /\
    (is_nullish (at_index fallback i) = false -> List.length (slot i) = 1) /\
    (cleaner (at_index raw i) = Throw ->
     is_nullish (at_index fallback i) = true -> slot i = []).
Proof.
  intros Hi n slot. unfold asHealingArray.
  rewrite asMaybeArray_flat_map. simpl fallback_length. fold n. fold slot.
  eexists. split; [reflexivity|].
  assert (flat_map slot (seq 0 n) =
          flat_map slot (seq 0 i) ++ slot i ++
          flat_map slot (seq (S i) (n - S i))) as Hsplit.
  { rewrite (seq_split n i Hi), flat_map_app. reflexivity. }
  split; [exact Hsplit|].
  assert (forall v, slot i = [v] -> In v (flat_map slot (seq 0 n))) as Hin.
  { intros v Hv. rewrite Hsplit, Hv. apply in_or_app. right. now left. }
  subst slot. unfold healed_slot in *. simpl fallback_at in *.
  split; [|split; [|split]].
  - intros v Hv. split; [|apply Hin]; now rewrite Hv.
  - intros Ht Hu. split; [|apply Hin]; now rewrite Ht, Hu.
  - intros Hu. rewrite Hu. now destruct (cleaner (at_index raw i)).
  - intros Ht Hu. now rewrite Ht, Hu.
Qed.

Lemma healing_array_with_fallback_witness :
  let fallback := [VStr "first"; VUndefined; VStr "third"] in
  let raw := [VStr "valid"; VNum 7; VNum 23; VStr "tail"] in
  exists out,
    asHealingArray asString (Some fallback) (VArr raw) = Return (VArr out) /\
    In (VStr "third") out.
Proof.
  intros fallback raw.
  assert (2 < Nat.max (List.length raw) (List.length fallback)) as Hi
    by (simpl; lia).
  destruct (@healing_array_with_fallback asString fallback raw 2 Hi)
    as (out & Hout & _ & _ & Hfb & _).
  exists out. split; [exact Hout|]. apply Hfb; reflexivity.
Defined.

(** Without a fallback every turn of the indexed loop takes the
    [try]/[catch] branch, which is the body of the for-of loop. *)
Lemma array_step_no_fallback cleaner raw i out :
  array_step cleaner None raw i out =
  try_catch (v <- cleaner (nth i raw VUndefined) ;; Return (out ++ [v]))
            (Return out).
Proof. reflexivity. Qed.

Lemma asHealingArrayCleaner_indexed cleaner raw :
  Plain.asHealingArrayCleaner cleaner raw = asMaybeArray cleaner None raw.
Proof.
  unfold Plain.asHealingArrayCleaner, asMaybeArray.
  destruct (isArray raw); simpl; [|reflexivity].
  rewrite Nat.max_0_r.
  rewrite <- (for_range_for_of VUndefined _ (elements raw) []).
  (* by [array_step_no_fallback] the two loop bodies are the same function *)
  reflexivity.
Qed.

(** C10. The one-argument asHealingArray (a for-of loop) and the
    generalized asHealingArray (an indexed loop) called without a fallback
    return the same list, for every cleaner and every raw input. *)
Theorem healing_array_versions_agree (cleaner : Cleaner) (raw : value) :
  Plain.asHealingArray cleaner raw = asHealingArray cleaner None raw.
Proof.
  unfold Plain.asHealingArray, asHealingArray.
  apply asHealingArrayCleaner_indexed.
Qed.

(* ================================================================== *)
(** * asHealingTuple *)

Lemma flat_map_singleton {A B} (f : A -> B) (l : list A) :
  flat_map (fun x => [f x]) l = map f l.
Proof.
  induction l as [|x r IH]; simpl; [reflexivity|]. now rewrite IH.
Qed.

(** What index [i] of the healed tuple holds. *)
Lemma asMaybeTuple_map cleaner fallback raw :
  asMaybeTuple cleaner fallback (VArr raw) =
  Return (VArr (map (fun i => match cleaner (at_index raw i) with
                              | Return v => v
                              | Throw => at_index fallback i
                              end)
                  (seq 0 (List.length fallback)))).
Proof.
  unfold asMaybeTuple. simpl.
  rewrite (for_range_pure _
             (fun out i => out ++ [match cleaner (at_index raw i) with
                                   | Return v => v
                                   | Throw => at_index fallback i
                                   end])).
  - simpl. rewrite fold_left_push. simpl. now rewrite flat_map_singleton.
  - intros j t. unfold asMaybe.
    now destruct (cleaner (at_index raw j)).
Qed.

(** C3. asHealingTuple: whatever the cleaner, the fallback template and the
    raw input (not a list, an empty list, a shorter or a longer list), the
    output is a list of exactly as many elements as the template.  An input
    that is not a list gives the template itself, and the raw elements beyond
    the length of the template are ignored. *)
Theorem healing_tuple_length
  (cleaner : Cleaner) (template : list value) (raw : value) :
  (exists out,
      asHealingTuple cleaner template raw = Return (VArr out) /\
      List.length out = List.length template /\
      ((forall l, raw <> VArr l) -> out = template)) /\
  (forall l l',
      firstn (List.length template) l = firstn (List.length template) l' ->
      asHealingTuple cleaner template (VArr l) =
      asHealingTuple cleaner template (VArr l')).
Proof.
  unfold asHealingTuple. split.
  - destruct raw;
      try (exists template; repeat split; reflexivity).
    rewrite asMaybeTuple_map. eexists. split; [reflexivity|]. split.
    + now rewrite length_map, length_seq.
    + intros H. now destruct (H items).
  - intros l l' Hl. rewrite !asMaybeTuple_map. do 2 f_equal.
    apply map_ext_in. intros i Hi. apply in_seq in Hi.
    assert (at_index l i = at_index l' i) as ->; [|reflexivity].
    unfold at_index.
    pose proof (nth_firstn (List.length template) l i VUndefined) as H1.
    pose proof (nth_firstn (List.length template) l' i VUndefined) as H2.
    assert (Nat.ltb i (List.length template) = true) as E
        by (apply Nat.ltb_lt; lia).
    rewrite E in H1, H2. rewrite <- H1, <- H2. now rewrite Hl.
Qed.

Lemma healing_tuple_length_witness :
  (exists out,
      asHealingTuple asNumber [VNum 10; VNum 20] (VStr "not-an-array")
      = Return (VArr out) /\
      List.length out = 2 /\ out = [VNum 10; VNum 20]) /\
  asHealingTuple asNumber [VNum 10; VNum 20] (VArr [VNum 1; VNum 2; VNum 3])
  = asHealingTuple asNumber [VNum 10; VNum 20] (VArr [VNum 1; VNum 2]).
Proof.
  split.
  - destruct (healing_tuple_length asNumber [VNum 10; VNum 20]
                (VStr "not-an-array")) as [(out & Hout & Hlen & Hcopy) _].
    exists out. repeat split; [exact Hout|exact Hlen|].
    apply Hcopy. intros l. discriminate.
  - apply (healing_tuple_length asNumber [VNum 10; VNum 20] VNull).
    reflexivity.
Defined.

(* ================================================================== *)
(** * The closed mode of asHealingObject *)

Lemma for_of_pure_in {A S} (body : A -> S -> outcome S) (g : S -> A -> S)
  (l : list A) (s : S) :
  (forall x t, In x l -> body x t = Return (g t x)) ->
  for_of l body s = Return (fold_left g l s).
Proof.
  revert s. induction l as [|x r IH]; intros s Hb; [reflexivity|].
  simpl. rewrite Hb by now left. simpl. apply IH.
  intros y t Hy. apply Hb. now right.
Qed.

(** Writing, in enumeration order, the fields of an object rebuilds it. *)
Lemma write_field_rebuild {A} (f : key -> option A) (o' o : props A) :
  canonical (keys_of (o ++ o')) = true ->
  (forall k v, In (k, v) o' -> f k = Some v) ->
  fold_left (write_field f) (keys_of o') o = o ++ o'.
Proof.
  revert o. induction o' as [|[k v] r IH]; intros o Hc Hf.
  - simpl. now rewrite app_nil_r.
  - simpl. unfold write_field at 2. rewrite (Hf k v) by now left.
    replace (o ++ (k, v) :: r) with ((o ++ [(k, v)]) ++ r) in *
      by (rewrite <- app_assoc; reflexivity).
    rewrite obj_set_snoc.
    + apply IH; [assumption|]. intros k' v' Hin. apply Hf. now right.
    + rewrite keys_of_app in Hc. now apply canonical_app_l in Hc.
Qed.

Lemma keys_of_map_pair {A} (h : key -> A) (ks : list key) :
  keys_of (map (fun k => (k, h k)) ks) = ks.
Proof.
  unfold keys_of. rewrite map_map. simpl. apply map_id.
Qed.

Lemma write_all_fields {A} (h : key -> A) (ks : list key) :
  canonical ks = true ->
  fold_left (write_field (fun k => Some (h k))) ks [] =
  map (fun k => (k, h k)) ks.
Proof.
  intros Hc.
  rewrite <- (keys_of_map_pair h ks) at 1.
  apply (write_field_rebuild _ (map (fun k => (k, h k)) ks) []).
  - simpl. now rewrite keys_of_map_pair.
  - intros k v Hin. apply in_map_iff in Hin as (x & E & _).
    now injection E as <- <-.
Qed.

Lemma lookup_map_pair {A} (h : key -> A) (ks : list key) (k : key) :
  In k ks -> lookup k (map (fun k => (k, h k)) ks) = Some (h k).
Proof.
  induction ks as [|a r IH]; intros Hin; [destruct Hin|].
  simpl. destruct (k =? a) eqn:E.
  - apply String.eqb_eq in E. now subst.
  - apply String.eqb_neq in E. destruct Hin as [->|Hin]; [congruence|auto].
Qed.

(** The guarded shape has the fields of the shape, each guarded by its
    default. *)
Lemma safeShape_fold shape fallback :
  safeShape shape fallback =
  fold_left
    (write_field
       (fun k => Some (asMaybe (call_prop shape k) (prop fallback k))))
    (keys_of shape) (spread [] shape).
Proof. reflexivity. Qed.

Lemma keys_write_existing {A} (f : key -> option A) ks (o : props A) :
  (forall k, In k ks -> In k (keys_of o)) ->
  keys_of (fold_left (write_field f) ks o) = keys_of o.
Proof.
  revert o. induction ks as [|a r IH]; intros o Hin; [reflexivity|].
  simpl.
  assert (keys_of (write_field f o a) = keys_of o) as E.
  { unfold write_field. destruct (f a); [|reflexivity].
    unfold obj_set.
    assert (has_key a o = true) as -> by (apply has_key_true, Hin; now left).
    apply keys_replace_prop. }
  rewrite IH, E; [reflexivity|].
  intros k Hk. rewrite E. apply Hin. now right.
Qed.

Lemma keys_safeShape shape fallback :
  canonical (keys_of shape) = true ->
  keys_of (safeShape shape fallback) = keys_of shape.
Proof.
  intros Hc. rewrite safeShape_fold, spread_copy by assumption.
  now apply keys_write_existing.
Qed.

Lemma call_safeShape shape fallback k :
  In k (keys_of shape) ->
  call_prop (safeShape shape fallback) k =
  asMaybe (call_prop shape k) (prop fallback k).
Proof.
  intros Hin. unfold call_prop at 1.
  now rewrite safeShape_fold, lookup_write_field.
Qed.

(** The closed mode on an object or a list. *)
Lemma asHealingShape_structured shape fallback raw :
  canonical (keys_of shape) = true ->
  typeof_object raw = true -> is_nullish raw = false ->
  asHealingShape shape fallback raw =
  Return (VObj (healed_record shape fallback raw)).
Proof.
  intros Hc Ht Hn. unfold asHealingShape, asMaybe, asObject.
  rewrite Ht, Hn. cbn [negb orb].
  rewrite keys_safeShape by assumption.
  rewrite (for_of_pure_in _
             (write_field
                (fun k => Some match call_prop shape k (get raw k) with
                               | Return v => v
                               | Throw => prop fallback k
                               end))).
  - simpl. now rewrite write_all_fields.
  - intros k out Hin. rewrite call_safeShape by assumption.
    unfold asMaybe, write_field.
    now destruct (call_prop shape k (get raw k)).
Qed.

Lemma asHealingShape_object shape fallback o :
  canonical (keys_of shape) = true ->
  asHealingShape shape fallback (VObj o) =
  Return (VObj (healed_record shape fallback (VObj o))).
Proof. intros Hc. now apply asHealingShape_structured. Qed.

Lemma asHealingShape_not_object shape fallback raw :
  typeof_object raw = false \/ is_nullish raw = true ->
  asHealingShape shape fallback raw = Return (VObj fallback).
Proof.
  intros H. unfold asHealingShape, asMaybe, asObject.
  assert (negb (typeof_object raw) || is_nullish raw = true) as ->;
    [|reflexivity].
  destruct H as [-> | ->]; [reflexivity|apply orb_true_r].
Qed.

Lemma structured_or_not raw :
  (typeof_object raw = true /\ is_nullish raw = false) \/
  typeof_object raw = false \/ is_nullish raw = true.
Proof. destruct (typeof_object raw), (is_nullish raw); auto. Qed.




(* ================================================================== *)
(** * Raising *)

Lemma asHealingShape_returns shape fallback raw :
  exists out, asHealingShape shape fallback raw = Return (VObj out).
Proof.
  unfold asHealingShape, asMaybe.
  destruct (asObject (safeShape shape fallback) raw) as [v|] eqn:E.
  - unfold asObject in E.
    destruct (negb (typeof_object raw) || is_nullish raw); [discriminate|].
    destruct (for_of _ _ _) as [out|]; [|discriminate].
    exists out. simpl in E. now injection E as <-.
  - now exists fallback.
Qed.

Lemma asMaybeArray_returns cleaner fallback raw :
  exists out, asMaybeArray cleaner fallback raw = Return (VArr out).
Proof.
  destruct raw; try (exists []; reflexivity).
  eexists. apply asMaybeArray_flat_map.
Qed.

Lemma asMaybeTuple_returns cleaner fallback raw :
  exists out, asMaybeTuple cleaner fallback raw = Return (VArr out).
Proof.
  destruct raw; try (exists fallback; reflexivity).
  eexists. apply asMaybeTuple_map.
Qed.

(** The healers whose defaults are never read off a prototype return a
    container on every raw input: the closed mode, whose record cleaner is
    guarded as a whole, the array healers and the tuple healer. *)
Lemma guarded_healers_return (cleaner : Cleaner) (raw : value) :
  (forall shape fallback, exists out,
      asHealingObject (Shape shape fallback) raw = Return (VObj out)) /\
  (forall fallback, exists out,
      asHealingArray cleaner fallback raw = Return (VArr out)) /\
  (exists out, Plain.asHealingArray cleaner raw = Return (VArr out)) /\
  (forall template, exists out,
      asHealingTuple cleaner template raw = Return (VArr out)).
Proof.
  split; [|split; [|split]].
  - intros shape fallback. apply asHealingShape_returns.
  - intros fallback. apply asMaybeArray_returns.
  - unfold Plain.asHealingArray. rewrite asHealingArrayCleaner_indexed.
    apply asMaybeArray_returns.
  - intros template. apply asMaybeTuple_returns.
Qed.


(* ================================================================== *)
(** * Healing what is already healed *)

Lemma map_nth_seq {A} (d : A) (l : list A) :
  map (fun i => nth i l d) (seq 0 (List.length l)) = l.
Proof.
  induction l as [|x r IH]; [reflexivity|].
  simpl. f_equal. rewrite <- seq_shift, map_map. exact IH.
Qed.

Lemma flat_map_singleton_in {A B} (f : A -> list B) (h : A -> B) (l : list A) :
  (forall x, In x l -> f x = [h x]) -> flat_map f l = map h l.
Proof.
  induction l as [|x r IH]; intros H; [reflexivity|].
  simpl. rewrite H by now left. simpl. f_equal. apply IH.
  intros y Hy. apply H. now right.
Qed.

(** ** Arrays *)

Lemma healed_slot_kept c fallback o i :
  kept_at c fallback i (at_index o i) ->
  healed_slot c fallback o i = [at_index o i].
Proof.
  unfold healed_slot. intros [H|(H & Hx & Hu)]; rewrite H; [reflexivity|].
  now rewrite Hu, <- Hx.
Qed.

Lemma asMaybeArray_stable c fallback o :
  fallback_length fallback <= List.length o ->
  (forall i, i < List.length o -> kept_at c fallback i (at_index o i)) ->
  asMaybeArray c fallback (VArr o) = Return (VArr o).
Proof.
  intros Hlen Hkept. rewrite asMaybeArray_flat_map.
  rewrite Nat.max_l by assumption.
  rewrite (flat_map_singleton_in _ (at_index o)).
  - unfold at_index. now rewrite map_nth_seq.
  - intros i Hi. apply in_seq in Hi. apply healed_slot_kept, Hkept. lia.
Qed.

Lemma healed_slot_accepted c o j x :
  fixes_outputs c -> In x (healed_slot c None o j) -> c x = Return x.
Proof.
  unfold healed_slot. intros Hfix.
  destruct (c (at_index o j)) as [v|] eqn:E; simpl; [|intros []].
  intros [<-|[]]. now apply Hfix in E.
Qed.

Lemma asMaybeArray_idempotent_plain c raw out :
  fixes_outputs c ->
  asMaybeArray c None raw = Return out ->
  asMaybeArray c None out = Return out.
Proof.
  intros Hfix. destruct raw;
    try (intros H; injection H as <-; reflexivity).
  rewrite asMaybeArray_flat_map. intros H. injection H as <-.
  apply asMaybeArray_stable; [simpl; lia|].
  intros i Hi. left.
  assert (In (at_index (flat_map (healed_slot c None items)
                          (seq 0 (Nat.max (List.length items)
                                          (fallback_length None)))) i)
             (flat_map (healed_slot c None items)
                (seq 0 (Nat.max (List.length items) (fallback_length None)))))
    as Hin by (apply nth_In; exact Hi).
  apply in_flat_map in Hin as (j & _ & Hj).
  now apply healed_slot_accepted in Hj.
Qed.

(** With a usable fallback entry at every index of the fallback list, the
    first indices each contribute one element and only later ones are
    dropped. *)
Lemma healed_array_shape c fb raw n :
  List.length fb <= n ->
  (forall i, i < List.length fb -> is_nullish (at_index fb i) = false) ->
  flat_map (healed_slot c (Some fb) raw) (seq 0 n) =
  map (fun i => match c (at_index raw i) with
                | Return v => v
                | Throw => at_index fb i
                end) (seq 0 (List.length fb)) ++
  flat_map (healed_slot c (Some fb) raw)
    (seq (List.length fb) (n - List.length fb)).
Proof.
  intros Hn Hu.
  replace n with (List.length fb + (n - List.length fb)) at 1 by lia.
  rewrite seq_app, flat_map_app. f_equal.
  apply flat_map_singleton_in. intros i Hi. apply in_seq in Hi.
  unfold healed_slot. simpl fallback_at.
  destruct (c (at_index raw i)); [reflexivity|].
  rewrite Hu by lia. reflexivity.
Qed.

Lemma healed_slot_beyond c fb raw j x :
  fixes_outputs c -> List.length fb <= j ->
  In x (healed_slot c (Some fb) raw j) -> c x = Return x.
Proof.
  unfold healed_slot. intros Hfix Hj. simpl fallback_at.
  destruct (c (at_index raw j)) as [v|] eqn:E; simpl.
  - intros [<-|[]]. now apply Hfix in E.
  - unfold at_index. rewrite (nth_overflow fb VUndefined) by assumption.
    intros [].
Qed.

Lemma asMaybeArray_idempotent_fallback c fb raw out :
  fixes_outputs c ->
  (forall i, i < List.length fb ->
             is_nullish (at_index fb i) = false /\ settled c (at_index fb i)) ->
  asMaybeArray c (Some fb) (VArr raw) = Return out ->
  asMaybeArray c (Some fb) out = Return out.
Proof.
  intros Hfix Hfb. rewrite asMaybeArray_flat_map. simpl fallback_length.
  intros H. injection H as <-.
  set (n := Nat.max (List.length raw) (List.length fb)).
  rewrite (healed_array_shape c fb raw n) by (try apply Hfb; unfold n; lia).
  set (h := fun i => match c (at_index raw i) with
                     | Return v => v
                     | Throw => at_index fb i
                     end).
  set (tail := flat_map (healed_slot c (Some fb) raw)
                 (seq (List.length fb) (n - List.length fb))).
  assert (List.length (map h (seq 0 (List.length fb))) = List.length fb)
    as Hlen by now rewrite length_map, length_seq.
  apply asMaybeArray_stable.
  - simpl. rewrite length_app, Hlen. lia.
  - intros i Hi. unfold at_index.
    destruct (Nat.lt_ge_cases i (List.length fb)) as [Hlt|Hge].
    + rewrite app_nth1 by lia.
      rewrite (nth_indep _ VUndefined (h 0)) by lia.
      rewrite map_nth, seq_nth by assumption. simpl.
      unfold h, kept_at. simpl fallback_at.
      destruct (c (at_index raw i)) as [v|] eqn:E.
      * left. now apply Hfix in E.
      * destruct (Hfb i Hlt) as [Hu [Hs|Hs]]; [now left|right; auto].
    + rewrite app_nth2 by lia. left.
      rewrite length_app, Hlen in Hi.
      assert (In (nth (i - List.length (map h (seq 0 (List.length fb))))
                    tail VUndefined) tail) as Hin
          by (apply nth_In; lia).
      apply in_flat_map in Hin as (j & Hj & Hx). apply in_seq in Hj.
      apply (healed_slot_beyond c fb raw j); [assumption|lia|assumption].
Qed.

(** ** Tuples *)

Lemma at_index_map_seq (h : nat -> value) (n i : nat) :
  i < n -> at_index (map h (seq 0 n)) i = h i.
Proof.
  intros Hi. unfold at_index.
  rewrite (nth_indep _ VUndefined (h 0))
    by (rewrite length_map, length_seq; exact Hi).
  now rewrite map_nth, seq_nth.
Qed.

Lemma asMaybeTuple_stable c template o :
  List.length o = List.length template ->
  (forall i, i < List.length template ->
             c (at_index o i) = Return (at_index o i) \/
             (c (at_index o i) = Throw /\
              at_index o i = at_index template i)) ->
  asMaybeTuple c template (VArr o) = Return (VArr o).
Proof.
  intros Hlen Hkept. rewrite asMaybeTuple_map. do 2 f_equal.
  transitivity (map (fun i => nth i o VUndefined) (seq 0 (List.length o)));
    [|apply map_nth_seq].
  rewrite Hlen. apply map_ext_in. intros i Hi. apply in_seq in Hi.
  destruct (Hkept i) as [H|[H E]]; [lia| |]; rewrite H; [reflexivity|].
  now rewrite <- E.
Qed.

Lemma asMaybeTuple_idempotent c template raw out :
  fixes_outputs c ->
  (forall i, i < List.length template -> settled c (at_index template i)) ->
  asMaybeTuple c template raw = Return out ->
  asMaybeTuple c template out = Return out.
Proof.
  intros Hfix Hset Hout.
  assert (asMaybeTuple c template (VArr template) = Return (VArr template))
    as Hcopy.
  { apply asMaybeTuple_stable; [reflexivity|].
    intros i Hi. destruct (Hset i Hi) as [H|H]; [now left|now right]. }
  destruct raw; try (injection Hout as <-; exact Hcopy).
  rewrite asMaybeTuple_map in Hout. injection Hout as <-.
  apply asMaybeTuple_stable.
  - now rewrite length_map, length_seq.
  - intros i Hi. rewrite at_index_map_seq by assumption.
    destruct (c (at_index items i)) as [v|] eqn:E.
    + left. now apply Hfix in E.
    + destruct (Hset i Hi) as [H|H]; [now left|now right].
Qed.

(** ** Objects, open mode *)

Lemma lookup_In {A} (k : key) (v : A) (o : props A) :
  NoDup (keys_of o) -> In (k, v) o -> lookup k o = Some v.
Proof.
  induction o as [|[a w] r IH]; intros Hnd Hin; [destruct Hin|].
  simpl in *. inversion Hnd as [|? ? Ha Hr]; subst.
  destruct Hin as [E|Hin].
  - injection E as -> ->. now rewrite String.eqb_refl.
  - destruct (k =? a) eqn:E; [|auto].
    apply String.eqb_eq in E. subst a. exfalso. apply Ha.
    change k with (fst (k, v)). now apply in_map.
Qed.

Lemma fold_write_none {A} (f : key -> option A) ks (o : props A) :
  (forall k, In k ks -> f k = None) -> fold_left (write_field f) ks o = o.
Proof.
  revert o. induction ks as [|a r IH]; intros o Hf; [reflexivity|].
  simpl. unfold write_field at 2. rewrite Hf by now left.
  apply IH. intros k Hk. apply Hf. now right.
Qed.

(** An object every field of which is healed to itself, and to which the
    fallback adds nothing, is returned as it is. *)
Lemma asMaybeObject_stable c fallback o :
  canonical (keys_of o) = true ->
  (forall k v, In (k, v) o -> healed_field c fallback (VObj o) k = Some v) ->
  (forall fb, fallback = Some fb ->
     NoDup (keys_of fb) /\
     forall k, In k (keys_of fb) -> ~ In k (keys_of o) ->
               is_array_index k = None /\
               healed_field c fallback (VObj o) k = None) ->
  asMaybeObject c fallback (VObj o) = Return (VObj o).
Proof.
  intros Hc Hown Hextra. rewrite asMaybeObject_fold by reflexivity.
  do 2 f_equal. unfold healed_object.
  pose proof (write_field_rebuild (healed_field c fallback (VObj o)) o [] Hc
                Hown) as Hre.
  destruct fallback as [fb|]; [|exact Hre].
  destruct (Hextra fb eq_refl) as [Hnd Hfb].
  unfold enumerated_keys. simpl own_entries.
  rewrite spread_copy by assumption.
  rewrite spread_keys_string.
  - rewrite fold_left_app, Hre. simpl. apply fold_write_none.
    intros k Hk. apply filter_In in Hk as [Hk Hn].
    apply negb_true_iff, has_key_false in Hn. now apply Hfb.
  - exact Hnd.
  - intros k Hk Hn. now apply Hfb.
Qed.

(** The output of a first healing of [raw]. *)
Section FirstPass.
Variables (c : Cleaner) (fallback : option (props value)) (raw : value).

Lemma healed_out_canonical :
  canonical (keys_of (healed_object c fallback raw)) = true.
Proof. unfold healed_object. now apply write_field_canonical. Qed.

Lemma healed_out_lookup k :
  lookup k (healed_object c fallback raw) =
  if in_dec string_dec k (enumerated_keys fallback raw)
  then healed_field c fallback raw k else None.
Proof.
  unfold healed_object. destruct (in_dec string_dec k _) as [Hin|Hn].
  - rewrite lookup_write_field by assumption.
    now destruct (healed_field c fallback raw k).
  - now rewrite lookup_write_other.
Qed.

Lemma healed_out_entry k v :
  In (k, v) (healed_object c fallback raw) ->
  healed_field c fallback raw k = Some v.
Proof.
  intros Hin. apply lookup_In in Hin.
  - rewrite healed_out_lookup in Hin.
    now destruct (in_dec string_dec k _).
  - apply canonical_NoDup, healed_out_canonical.
Qed.

Hypothesis c_fixes : fixes_outputs c.
Hypothesis fallback_settled :
  forall k, In k (enumerated_keys fallback raw) ->
            is_nullish (fallback_prop fallback k) = false ->
            settled c (fallback_prop fallback k).

Lemma healed_out_entry_again k v :
  In (k, v) (healed_object c fallback raw) ->
  healed_field c fallback (VObj (healed_object c fallback raw)) k = Some v.
Proof.
  intros Hin. pose proof (healed_out_entry k v Hin) as H1.
  apply lookup_In in Hin; [|apply canonical_NoDup, healed_out_canonical].
  assert (In k (enumerated_keys fallback raw)) as Henum.
  { pose proof (healed_out_lookup k) as Hl. rewrite Hin in Hl.
    now destruct (in_dec string_dec k (enumerated_keys fallback raw)). }
  unfold healed_field in *. simpl get. rewrite Hin.
  destruct (k =? "__proto__"); [discriminate|].
  destruct (c (get raw k)) as [w|] eqn:E.
  - injection H1 as ->. apply c_fixes in E. now rewrite E.
  - destruct (is_nullish (fallback_prop fallback k)) eqn:Hu; [discriminate|].
    injection H1 as <-.
    destruct (fallback_settled k Henum Hu) as [H|H]; now rewrite H.
Qed.

Lemma healed_out_missing k :
  In k (enumerated_keys fallback raw) ->
  ~ In k (keys_of (healed_object c fallback raw)) ->
  is_nullish (fallback_prop fallback k) = false ->
  k = "__proto__".
Proof.
  intros Hin Hn Hu. apply lookup_None in Hn.
  rewrite healed_out_lookup in Hn.
  destruct (in_dec string_dec k _); [|contradiction].
  unfold healed_field in Hn.
  destruct (k =? "__proto__") eqn:E; [now apply String.eqb_eq|].
  destruct (c (get raw k)); [discriminate|]. rewrite Hu in Hn. discriminate.
Qed.

End FirstPass.

Lemma asMaybeObject_idempotent_plain c raw out :
  fixes_outputs c ->
  asMaybeObject c None raw = Return out ->
  asMaybeObject c None out = Return out.
Proof.
  intros Hfix Hout.
  assert (typeof_object raw = false \/ is_nullish raw = true \/
          (typeof_object raw = true /\ is_nullish raw = false))
    as [H|[H|[Ht Hn]]]
      by (destruct (typeof_object raw), (is_nullish raw); auto).
  - rewrite asMaybeObject_not_object in Hout by now left.
    injection Hout as <-. reflexivity.
  - rewrite asMaybeObject_not_object in Hout by now right.
    injection Hout as <-. reflexivity.
  - rewrite asMaybeObject_fold in Hout by assumption. injection Hout as <-.
    apply asMaybeObject_stable.
    + apply healed_out_canonical.
    + intros k v. apply healed_out_entry_again; [assumption|].
      intros k' _ Hu. discriminate.
    + intros fb E. discriminate.
Qed.

Lemma asMaybeObject_idempotent_fallback c fb raw out :
  fixes_outputs c ->
  canonical (keys_of fb) = true ->
  (forall k, In k (keys_of fb) ->
             is_nullish (prop fb k) = false /\ settled c (prop fb k)) ->
  typeof_object raw = true -> is_nullish raw = false ->
  (forall k, In k (Object_keys raw) -> object_member k = None) ->
  asMaybeObject c (Some fb) raw = Return out ->
  asMaybeObject c (Some fb) out = Return out.
Proof.
  intros Hfix Hc Hfb Ht Hn Hplain Hout.
  rewrite asMaybeObject_fold in Hout by assumption. injection Hout as <-.
  assert (forall k, In k (enumerated_keys (Some fb) raw) ->
                    is_nullish (fallback_prop (Some fb) k) = false ->
                    settled c (fallback_prop (Some fb) k)) as Hset.
  { intros k Henum Hu. simpl in *.
    destruct (in_dec string_dec k (keys_of fb)) as [Hin|Hnin].
    - now apply Hfb.
    - apply keys_spread in Henum as [Henum|Henum]; [|contradiction].
      apply keys_spread in Henum as [[]|Henum].
      apply lookup_None in Hnin. unfold prop in Hu.
      rewrite Hnin, (Hplain k Henum) in Hu. discriminate. }
  apply asMaybeObject_stable.
  - apply healed_out_canonical.
  - intros k v. now apply healed_out_entry_again.
  - intros fb' E. injection E as <-. split; [now apply canonical_NoDup|].
    intros k Hk Hmiss.
    assert (k = "__proto__") as ->; [|split; reflexivity].
    apply (healed_out_missing c (Some fb) raw); [| |now apply Hfb].
    + unfold enumerated_keys. apply keys_spread. now right.
    + exact Hmiss.
Qed.

(** ** Objects, closed mode *)

Lemma map_prop_self (fb : props value) :
  NoDup (keys_of fb) -> map (fun k => (k, prop fb k)) (keys_of fb) = fb.
Proof.
  induction fb as [|[a w] r IH]; intros Hnd; [reflexivity|].
  simpl in *. inversion Hnd as [|? ? Ha Hr]; subst.
  unfold prop at 1. simpl. rewrite String.eqb_refl. f_equal.
  rewrite <- (IH Hr) at 2. apply map_ext_in. intros k Hk.
  unfold prop. simpl. destruct (k =? a) eqn:E; [|reflexivity].
  apply String.eqb_eq in E. subst a. contradiction.
Qed.

Lemma healed_record_stable shape fallback o :
  (forall k, In k (keys_of shape) ->
             exists v, lookup k o = Some v /\
                       (call_prop shape k v = Return v \/
                        (call_prop shape k v = Throw /\
                         v = prop fallback k))) ->
  healed_record shape fallback (VObj o) =
  map (fun k => (k, prop o k)) (keys_of shape).
Proof.
  intros Hkept. unfold healed_record. apply map_ext_in. intros k Hk.
  destruct (Hkept k Hk) as (v & Hv & Hc). unfold prop at 2. simpl get.
  rewrite Hv. destruct Hc as [H|[H E]]; rewrite H; congruence.
Qed.

Lemma asHealingShape_idempotent shape fallback raw out :
  canonical (keys_of shape) = true ->
  keys_of fallback = keys_of shape ->
  (forall k, In k (keys_of shape) ->
             fixes_outputs (call_prop shape k) /\
             settled (call_prop shape k) (prop fallback k)) ->
  asHealingShape shape fallback raw = Return out ->
  asHealingShape shape fallback out = Return out.
Proof.
  intros Hc Hkeys Hok Hout.
  assert (asHealingShape shape fallback (VObj fallback)
          = Return (VObj fallback)) as Hcopy.
  { rewrite asHealingShape_object by assumption. do 2 f_equal.
    rewrite healed_record_stable.
    - rewrite <- Hkeys. apply map_prop_self. rewrite Hkeys.
      now apply canonical_NoDup.
    - intros k Hk. exists (prop fallback k). split.
      + rewrite <- Hkeys in Hk. apply has_key_true in Hk.
        unfold has_key, prop in *. now destruct (lookup k fallback).
      + destruct (Hok k Hk) as [_ [H|H]]; auto. }
  destruct (structured_or_not raw) as [[Ht Hn]|H].
  2:{ rewrite asHealingShape_not_object in Hout by assumption.
      injection Hout as <-. exact Hcopy. }
  rewrite asHealingShape_structured in Hout by assumption.
  injection Hout as <-.
  rewrite asHealingShape_object by assumption. do 2 f_equal.
  rewrite healed_record_stable.
  - unfold healed_record. apply map_ext_in. intros k Hk.
    unfold prop at 1. unfold healed_record.
    now rewrite lookup_map_pair.
  - intros k Hk. unfold healed_record. rewrite lookup_map_pair by assumption.
    eexists. split; [reflexivity|].
    destruct (Hok k Hk) as [Hfix Hset].
    destruct (call_prop shape k (get raw k)) as [v|] eqn:E.
    + left. now apply Hfix in E.
    + destruct Hset as [H|H]; auto.
Qed.

(** ** The sample cleaners fix their outputs *)

Lemma asNumber_fixes_outputs : fixes_outputs asNumber.
Proof. intros [] v H; try discriminate. now injection H as <-. Qed.

Lemma asString_fixes_outputs : fixes_outputs asString.
Proof. intros [] v H; try discriminate. now injection H as <-. Qed.

Lemma asMagnitude_fixes_outputs : fixes_outputs asMagnitude.
Proof.
  intros [] v H; try discriminate. injection H as <-.
  simpl. now rewrite Z.abs_idemp.
Qed.

Lemma asOptionalNumber_fixes_outputs : fixes_outputs asOptionalNumber.
Proof. intros [] v H; try discriminate; now injection H as <-. Qed.

(** C7 (amended). Under the hypothesis that the element cleaner fixes its
    own outputs, healing a healed output gives that output back: for
    asHealingArray without fallback (both versions) and the open mode of
    asHealingObject without fallback map, on every raw input; for
    asHealingTuple on every raw input, when the cleaner leaves each entry of
    the template as it is (returns it unchanged or rejects it); for
    asHealingArray with a fallback list on a list input, when every
    fallback entry is non-null and left as it is by the cleaner; for the
    open mode of asHealingObject with a fallback map on an object input no
    key of which names a member of [Object.prototype], when every fallback
    entry is non-null and left as it is by the cleaner; for the closed mode
    of asHealingObject on every raw input, when every field cleaner fixes
    its outputs and leaves its default as it is and the fallback record
    lists the fields of the shape in the order of the shape. *)
Theorem healing_idempotent :
  (forall c, fixes_outputs c ->
     (forall raw out,
         asHealingArray c None raw = Return out ->
         asHealingArray c None out = Return out) /\
     (forall raw out,
         Plain.asHealingArray c raw = Return out ->
         Plain.asHealingArray c out = Return out) /\
     (forall raw out,
         asHealingObject (KeyValue c None) raw = Return out ->
         asHealingObject (KeyValue c None) out = Return out) /\
     (forall template raw out,
         (forall i, i < List.length template ->
                    settled c (at_index template i)) ->
         asHealingTuple c template raw = Return out ->
         asHealingTuple c template out = Return out) /\
     (forall fb raw out,
         (forall i, i < List.length fb ->
                    is_nullish (at_index fb i) = false /\
                    settled c (at_index fb i)) ->
         asHealingArray c (Some fb) (VArr raw) = Return out ->
         asHealingArray c (Some fb) out = Return out) /\
     (forall fb raw out,
         canonical (keys_of fb) = true ->
         (forall k v, lookup k fb = Some v ->
                      is_nullish v = false /\ settled c v) ->
         typeof_object raw = true -> is_nullish raw = false ->
         (forall k, In k (Object_keys raw) -> object_member k = None) ->
         asHealingObject (KeyValue c (Some fb)) raw = Return out ->
         asHealingObject (KeyValue c (Some fb)) out = Return out)) /\
  (forall shape fallback raw out,
      canonical (keys_of shape) = true ->
      keys_of fallback = keys_of shape ->
      (forall k v, In k (keys_of shape) -> lookup k fallback = Some v ->
                   fixes_outputs (call_prop shape k) /\
                   settled (call_prop shape k) v) ->
      asHealingObject (Shape shape fallback) raw = Return out ->
      asHealingObject (Shape shape fallback) out = Return out).
Proof.
  split.
  - intros c Hfix. split; [|split; [|split; [|split; [|split]]]].
    + intros raw out. now apply asMaybeArray_idempotent_plain.
    + intros raw out. unfold Plain.asHealingArray.
      rewrite !asHealingArrayCleaner_indexed.
      now apply asMaybeArray_idempotent_plain.
    + intros raw out. now apply asMaybeObject_idempotent_plain.
    + intros template raw out Hset. now apply asMaybeTuple_idempotent.
    + intros fb raw out Hfb. now apply asMaybeArray_idempotent_fallback.
    + intros fb raw out Hc Hfb Ht Hn Hplain.
      apply (asMaybeObject_idempotent_fallback c fb raw out); try assumption.
      intros k Hk. apply has_key_true in Hk. unfold has_key, prop in *.
      destruct (lookup k fb) as [v|] eqn:E; [|discriminate].
      exact (Hfb k v E).
  - intros shape fallback raw out Hc Hkeys Hok.
    apply asHealingShape_idempotent; try assumption.
    intros k Hk. pose proof Hk as Hk'. rewrite <- Hkeys in Hk'.
    apply has_key_true in Hk'. unfold has_key, prop in *.
    destruct (lookup k fallback) as [v|] eqn:E; [|discriminate].
    exact (Hok k v Hk E).
Qed.

Lemma healing_idempotent_witness :
  (asHealingTuple asNumber [VNum 0; VNum 0; VNum 0]
     (VArr [VNum 1; VStr "x"; VNum 3])
   = Return (VArr [VNum 1; VNum 0; VNum 3]) /\
   asHealingTuple asNumber [VNum 0; VNum 0; VNum 0]
     (VArr [VNum 1; VNum 0; VNum 3])
   = Return (VArr [VNum 1; VNum 0; VNum 3])) /\
  (asHealingObject (KeyValue asNumber (Some [("age", VNum 0)]))
     (VObj [("age", VStr "x"); ("n", VNum 2); ("bad", VNull)])
   = Return (VObj [("age", VNum 0); ("n", VNum 2)]) /\
   asHealingObject (KeyValue asNumber (Some [("age", VNum 0)]))
     (VObj [("age", VNum 0); ("n", VNum 2)])
   = Return (VObj [("age", VNum 0); ("n", VNum 2)])).
Proof.
  destruct healing_idempotent as [H _].
  destruct (H asNumber asNumber_fixes_outputs)
    as (_ & _ & _ & Htuple & _ & Hobject).
  split; (split; [reflexivity|]).
  - apply (Htuple [VNum 0; VNum 0; VNum 0]
             (VArr [VNum 1; VStr "x"; VNum 3])).
    + intros i Hi. left. simpl in Hi.
      destruct i as [|[|[|i]]]; try reflexivity. lia.
    + reflexivity.
  - apply (Hobject [("age", VNum 0)]
             (VObj [("age", VStr "x"); ("n", VNum 2); ("bad", VNull)])).
    + reflexivity.
    + intros k v. simpl. destruct (k =? "age"); [|discriminate].
      intros E. injection E as <-. split; [reflexivity|now left].
    + reflexivity.
    + reflexivity.
    + intros k [<-|[<-|[<-|[]]]]; reflexivity.
    + reflexivity.
Defined.

(** C7 as stated fails, and each added condition is needed.  With a
    fallback list or map, a healer pads what it had returned for an input
    of the wrong kind, and pads again after an index was dropped or above a
    null entry the cleaner accepts [undefined] for; a fallback entry the
    cleaner would change is changed by the second healing; and the closed
    mode puts the fields of a fallback record back in the order of the
    shape. *)
Lemma healing_idempotence_counterexample :
  (fixes_outputs asNumber /\
   asHealingArray asNumber (Some [VNum 0]) VNull = Return (VArr []) /\
   asHealingArray asNumber (Some [VNum 0]) (VArr [])
   = Return (VArr [VNum 0]) /\
   asHealingArray asNumber (Some [VNum 0]) (VArr []) <> Return (VArr [])) /\
  (fixes_outputs asString /\
   asHealingArray asString (Some [VStr "first"; VUndefined; VStr "third"])
     (VArr [VStr "valid"; VNum 23; VNum 23])
   = Return (VArr [VStr "valid"; VStr "third"]) /\
   asHealingArray asString (Some [VStr "first"; VUndefined; VStr "third"])
     (VArr [VStr "valid"; VStr "third"])
   = Return (VArr [VStr "valid"; VStr "third"; VStr "third"])) /\
  (fixes_outputs asMagnitude /\
   asHealingTuple asMagnitude [VNum (-1)] (VArr [VStr "x"])
   = Return (VArr [VNum (-1)]) /\
   asHealingTuple asMagnitude [VNum (-1)] (VArr [VNum (-1)])
   = Return (VArr [VNum 1]) /\
   asHealingArray asMagnitude (Some [VNum (-1)]) (VArr [VStr "x"])
   = Return (VArr [VNum (-1)]) /\
   asHealingArray asMagnitude (Some [VNum (-1)]) (VArr [VNum (-1)])
   = Return (VArr [VNum 1])) /\
  (asHealingObject (KeyValue asNumber (Some [("a", VNum 0)])) VNull
   = Return (VObj []) /\
   asHealingObject (KeyValue asNumber (Some [("a", VNum 0)])) (VObj [])
   = Return (VObj [("a", VNum 0)])) /\
  (fixes_outputs asOptionalNumber /\
   asHealingObject (KeyValue asOptionalNumber (Some [("a", VNull)]))
     (VObj [("a", VStr "bad")])
   = Return (VObj []) /\
   asHealingObject (KeyValue asOptionalNumber (Some [("a", VNull)]))
     (VObj [])
   = Return (VObj [("a", VUndefined)])) /\
  (asHealingObject (KeyValue asMagnitude (Some [("a", VNum (-1))]))
     (VObj [("a", VStr "x")])
   = Return (VObj [("a", VNum (-1))]) /\
   asHealingObject (KeyValue asMagnitude (Some [("a", VNum (-1))]))
     (VObj [("a", VNum (-1))])
   = Return (VObj [("a", VNum 1)])) /\
  (asHealingObject
     (Shape [("a", asString); ("b", asString)]
            [("b", VStr "x"); ("a", VStr "y")]) VNull
   = Return (VObj [("b", VStr "x"); ("a", VStr "y")]) /\
   asHealingObject
     (Shape [("a", asString); ("b", asString)]
            [("b", VStr "x"); ("a", VStr "y")])
     (VObj [("b", VStr "x"); ("a", VStr "y")])
   = Return (VObj [("a", VStr "y"); ("b", VStr "x")])) /\
  (asHealingObject (Shape [("a", asMagnitude)] [("a", VNum (-1))]) (VObj [])
   = Return (VObj [("a", VNum (-1))]) /\
   asHealingObject (Shape [("a", asMagnitude)] [("a", VNum (-1))])
     (VObj [("a", VNum (-1))])
   = Return (VObj [("a", VNum 1)])).
Proof.
  repeat split;
    try apply asNumber_fixes_outputs;
    try apply asString_fixes_outputs;
    try apply asMagnitude_fixes_outputs;
    try apply asOptionalNumber_fixes_outputs.
  vm_compute. discriminate.
Qed.

(* ================================================================== *)
(** * The examples of the documentation and of the test suite *)

Example doc_array_with_fallback :
  asHealingArray asNumber (Some [VNum 0; VNum 0; VNum 0])
    (VArr [VNum 1; VStr "invalid"; VNum 3; VStr "also-invalid"; VNum 5])
  = Return (VArr [VNum 1; VNum 0; VNum 3; VNum 5]).
Proof. reflexivity. Qed.

Example doc_array_without_fallback :
  asHealingArray asNumber None (VArr [VNum 1; VStr "invalid"; VNum 3])
  = Return (VArr [VNum 1; VNum 3]).
Proof. reflexivity. Qed.

Example test_array_fallback_longer_than_input :
  asHealingArray asString
    (Some [VStr "default"; VStr "fallback"; VStr "value"; VStr "extra"])
    (VArr [VStr "hello"; VNum 123])
  = Return (VArr [VStr "hello"; VStr "fallback"; VStr "value"; VStr "extra"]).
Proof. reflexivity. Qed.

Example test_array_sparse_fallback :
  asHealingArray asString (Some [VStr "first"; VUndefined; VStr "third"])
    (VArr [VStr "valid"; VStr "also invalid"; VNum 23])
  = Return (VArr [VStr "valid"; VStr "also invalid"; VStr "third"]).
Proof. reflexivity. Qed.

Example test_plain_array_mixed :
  Plain.asHealingArray asNumber
    (VArr [VNum 1; VStr "invalid"; VNum 2; VNull; VNum 3; VUndefined; VNum 4])
  = Return (VArr [VNum 1; VNum 2; VNum 3; VNum 4]).
Proof. reflexivity. Qed.

Example doc_tuple :
  asHealingTuple asNumber [VNum 0; VNum 0; VNum 0]
    (VArr [VNum 1; VStr "invalid"; VNum 3])
  = Return (VArr [VNum 1; VNum 0; VNum 3]).
Proof. reflexivity. Qed.

Example test_tuple_truncates :
  asHealingTuple asNumber [VNum 0; VNum 0]
    (VArr [VNum 1; VNum 2; VNum 3; VNum 4; VNum 5])
  = Return (VArr [VNum 1; VNum 2]).
Proof. reflexivity. Qed.

Example test_tuple_pads :
  asHealingTuple asString [VStr "a"; VStr "b"; VStr "c"; VStr "d"]
    (VArr [VStr "x"; VStr "y"])
  = Return (VArr [VStr "x"; VStr "y"; VStr "c"; VStr "d"]).
Proof. reflexivity. Qed.

Example test_object_drops_invalid :
  asHealingObject (KeyValue asString None)
    (VObj [("a", VStr "hello"); ("b", VNum 123); ("c", VStr "world");
           ("d", VNull)])
  = Return (VObj [("a", VStr "hello"); ("c", VStr "world")]).
Proof. reflexivity. Qed.

Example test_object_fallback_for_missing :
  asHealingObject
    (KeyValue asString
       (Some [("name", VStr "Unknown"); ("orientation", VStr "bitcoiner")]))
    (VObj [("name", VStr "John"); ("age", VNum 67)])
  = Return (VObj [("name", VStr "John"); ("orientation", VStr "bitcoiner")]).
Proof. reflexivity. Qed.

Example test_object_own_proto_key :
  asHealingObject (KeyValue asString None)
    (VObj [("a", VStr "hi"); ("__proto__", VStr "bad")])
  = Return (VObj [("a", VStr "hi")]).
Proof. reflexivity. Qed.

Example test_object_empty_list :
  asHealingObject (KeyValue asString None) (VArr []) = Return (VObj []).
Proof. reflexivity. Qed.

Example test_shape_missing_property :
  asHealingObject
    (Shape [("name", asString); ("age", asNumber)]
           [("name", VStr "Unknown"); ("age", VNum 0)])
    (VObj [("name", VStr "John")])
  = Return (VObj [("name", VStr "John"); ("age", VNum 0)]).
Proof. reflexivity. Qed.

Example test_shape_ignores_extra :
  asHealingObject (Shape [("name", asString)] [("name", VStr "Unknown")])
    (VObj [("name", VStr "John"); ("extra", VStr "ignored");
           ("another", VNum 123)])
  = Return (VObj [("name", VStr "John")]).
Proof. reflexivity. Qed.

Example array_index_keys :
  is_array_index "0" = Some 0%N /\
  is_array_index "4294967294" = Some 4294967294%N /\
  is_array_index "4294967295" = None /\
  is_array_index "01" = None /\
  is_array_index "" = None /\
  is_array_index "b" = None.
Proof. repeat split; reflexivity. Qed.

Example keys_order_of_a_merge :
  keys_of (spread (spread [] [("b", VNum 1); ("a", VNum 2)])
                  [("10", VNum 3); ("a", VNum 4); ("9", VNum 5)])
  = ["9"; "10"; "b"; "a"].
Proof. reflexivity. Qed.

(* ================================================================== *)
(** * Further properties of asHealingArray *)

Lemma flat_map_map_compose {A B C} (g : B -> list C) (h : A -> B)
  (l : list A) :
  flat_map g (map h l) = flat_map (fun x => g (h x)) l.
Proof.
  induction l as [|x r IH]; simpl; [reflexivity|]. now rewrite IH.
Qed.

Lemma flat_map_ext_in {A B} (f g : A -> list B) (l : list A) :
  (forall x, In x l -> f x = g x) -> flat_map f l = flat_map g l.
Proof.
  induction l as [|x r IH]; intros H; [reflexivity|].
  simpl. rewrite H by now left. f_equal. apply IH.
  intros y Hy. apply H. now right.
Qed.

Lemma flat_map_at_index {B} (g : value -> list B) (l : list value) :
  flat_map (fun i => g (at_index l i)) (seq 0 (List.length l)) = flat_map g l.
Proof.
  rewrite <- (flat_map_map_compose g (fun i => at_index l i)).
  unfold at_index. now rewrite map_nth_seq.
Qed.

Lemma length_flat_map_le {A B} (f g : A -> list B) (l : list A) :
  (forall x, In x l -> List.length (f x) <= List.length (g x)) ->
  List.length (flat_map f l) <= List.length (flat_map g l).
Proof.
  induction l as [|x r IH]; intros H; [reflexivity|].
  simpl. rewrite !length_app.
  specialize (H x (or_introl eq_refl)) as Hx.
  assert (List.length (flat_map f r) <= List.length (flat_map g r))
    by (apply IH; intros y Hy; apply H; now right).
  lia.
Qed.

Lemma length_flat_map_le1 {A B} (f : A -> list B) (l : list A) :
  (forall x, List.length (f x) <= 1) ->
  List.length (flat_map f l) <= List.length l.
Proof.
  intros H. induction l as [|x r IH]; [reflexivity|].
  simpl. rewrite length_app. specialize (H x). lia.
Qed.

Lemma healed_slot_no_fallback c raw i :
  healed_slot c None raw i = cleaned c (at_index raw i).
Proof. reflexivity. Qed.

Lemma healed_slot_beyond_fallback c fb raw i :
  List.length fb <= i ->
  healed_slot c (Some fb) raw i = cleaned c (at_index raw i).
Proof.
  intros Hi. unfold healed_slot, cleaned. simpl fallback_at.
  unfold at_index at 2 3. now rewrite (nth_overflow fb VUndefined Hi).
Qed.

Lemma length_healed_slot c fallback raw i :
  List.length (healed_slot c fallback raw i) <= 1.
Proof.
  unfold healed_slot. destruct (c (at_index raw i)); simpl; [lia|].
  destruct (is_nullish (fallback_at fallback i)); simpl; lia.
Qed.

(** Without a fallback the healed array is the list of the cleaned
    elements. *)
Lemma asMaybeArray_cleaned c l :
  asMaybeArray c None (VArr l) = Return (VArr (flat_map (cleaned c) l)).
Proof.
  rewrite asMaybeArray_flat_map. simpl fallback_length. rewrite Nat.max_0_r.
  do 2 f_equal. apply (flat_map_at_index (cleaned c)).
Qed.

Lemma in_cleaned c x v : In v (cleaned c x) <-> c x = Return v.
Proof.
  unfold cleaned. destruct (c x) as [w|]; simpl.
  - split; [intros [->|[]]; reflexivity|]. intros H. injection H as ->.
    now left.
  - split; [intros []|discriminate].
Qed.

(** X1. The one-argument asHealingArray on a list returns the values the
    cleaner returns for the elements it accepts, in the order of the input
    and nothing else; the output is never longer than the input. *)
Theorem plain_array_keeps_successes (c : Cleaner) (l : list value) :
  exists out,
    Plain.asHealingArray c (VArr l) = Return (VArr out) /\
    out = flat_map (cleaned c) l /\
    List.length out <= List.length l /\
    (forall v, In v out <-> exists x, In x l /\ c x = Return v).
Proof.
  unfold Plain.asHealingArray.
  rewrite asHealingArrayCleaner_indexed, asMaybeArray_cleaned.
  eexists. split; [reflexivity|]. split; [reflexivity|]. split.
  - apply length_flat_map_le1. intros x. unfold cleaned.
    destruct (c x); simpl; lia.
  - intros v. rewrite in_flat_map. split.
    + intros (x & Hx & Hv). exists x. split; [assumption|].
      now apply in_cleaned.
    + intros (x & Hx & Hv). exists x. split; [assumption|].
      now apply in_cleaned.
Qed.

(** X2. The one-argument asHealingArray distributes over concatenation:
    healing [l1 ++ l2] gives the healing of [l1] followed by the healing of
    [l2]. *)
Theorem plain_array_app (c : Cleaner) (l1 l2 : list value) :
  exists o1 o2,
    Plain.asHealingArray c (VArr l1) = Return (VArr o1) /\
    Plain.asHealingArray c (VArr l2) = Return (VArr o2) /\
    Plain.asHealingArray c (VArr (l1 ++ l2)) = Return (VArr (o1 ++ o2)).
Proof.
  unfold Plain.asHealingArray.
  rewrite !asHealingArrayCleaner_indexed, !asMaybeArray_cleaned.
  exists (flat_map (cleaned c) l1), (flat_map (cleaned c) l2).
  repeat split. now rewrite flat_map_app.
Qed.

(** X3. For the generalized asHealingArray an absent fallback and an empty
    fallback list are the same configuration, on every raw input. *)
Theorem array_empty_fallback_is_no_fallback (c : Cleaner) (raw : value) :
  asHealingArray c (Some []) raw = asHealingArray c None raw.
Proof.
  unfold asHealingArray. destruct raw; try reflexivity.
  rewrite !asMaybeArray_flat_map. do 2 f_equal.
  apply flat_map_ext. intros i. unfold healed_slot. simpl fallback_at.
  unfold at_index at 2 3. now destruct i.
Qed.

Lemma usable_entries_flat_map fb :
  usable_entries fb =
  flat_map (fun v => if is_nullish v then [] else [v]) fb.
Proof.
  unfold usable_entries. induction fb as [|v r IH]; [reflexivity|].
  simpl. rewrite IH. now destruct (is_nullish v).
Qed.

(** X4. asHealingArray with a fallback list on a list: the output has at
    most [max (len raw) (len fallback)] elements and at least as many as the
    fallback list has defined non-null entries. *)
Theorem array_with_fallback_length (c : Cleaner) (fb raw : list value) :
  exists out,
    asHealingArray c (Some fb) (VArr raw) = Return (VArr out) /\
    List.length (usable_entries fb) <= List.length out /\
    List.length out <= Nat.max (List.length raw) (List.length fb).
Proof.
  unfold asHealingArray. rewrite asMaybeArray_flat_map. simpl fallback_length.
  eexists. split; [reflexivity|]. split.
  - set (n := Nat.max (List.length raw) (List.length fb)).
    replace n with (List.length fb + (n - List.length fb)) by (unfold n; lia).
    rewrite seq_app, flat_map_app, length_app.
    rewrite usable_entries_flat_map.
    rewrite <- (flat_map_at_index
                  (fun v => if is_nullish v then [] else [v]) fb).
    assert (List.length
              (flat_map
                 (fun i => if is_nullish (at_index fb i) then []
                           else [at_index fb i])
                 (seq 0 (List.length fb)))
            <= List.length
                 (flat_map (healed_slot c (Some fb) raw)
                    (seq 0 (List.length fb)))) as H; [|lia].
    apply length_flat_map_le. intros i _. unfold healed_slot.
    simpl fallback_at.
    destruct (is_nullish (at_index fb i)); simpl; [lia|].
    destruct (c (at_index raw i)); simpl; lia.
  - rewrite <- (length_seq (Nat.max (List.length raw) (List.length fb)) 0)
      at 2.
    apply length_flat_map_le1. intros i. apply length_healed_slot.
Qed.

(** X5. Every element of the output of asHealingArray is a value the
    cleaner returned for the element at some iterated index, or the defined
    non-null fallback entry of an index whose element the cleaner rejected:
    no raw element is passed through. *)
Theorem array_output_provenance
  (c : Cleaner) (fallback : option (list value)) (raw out : list value)
  (v : value) :
  asHealingArray c fallback (VArr raw) = Return (VArr out) -> In v out ->
  exists i,
    i < Nat.max (List.length raw) (fallback_length fallback) /\
    (c (at_index raw i) = Return v \/
     (c (at_index raw i) = Throw /\ v = fallback_at fallback i /\
      is_nullish v = false)).
Proof.
  unfold asHealingArray. rewrite asMaybeArray_flat_map.
  intros H Hin. injection H as <-.
  apply in_flat_map in Hin as (i & Hi & Hv). apply in_seq in Hi.
  exists i. split; [lia|]. unfold healed_slot in Hv.
  destruct (c (at_index raw i)) as [w|].
  - left. destruct Hv as [->|[]]. reflexivity.
  - right. destruct (is_nullish (fallback_at fallback i)) eqn:Hu;
      [destruct Hv|].
    destruct Hv as [<-|[]]. auto.
Qed.

Lemma array_output_provenance_witness :
  exists i,
    i < 3 /\
    (asNumber (at_index [VNum 1; VStr "x"; VNum 3] i) = Return (VNum 0) \/
     (asNumber (at_index [VNum 1; VStr "x"; VNum 3] i) = Throw /\
      VNum 0 = fallback_at (Some [VNum 0; VNum 0]) i /\
      is_nullish (VNum 0) = false)).
Proof.
  apply (array_output_provenance asNumber (Some [VNum 0; VNum 0])
           [VNum 1; VStr "x"; VNum 3] [VNum 1; VNum 0; VNum 3] (VNum 0)).
  - reflexivity.
  - simpl. right. left. reflexivity.
Defined.

(** X6. A list every element of which the cleaner returns unchanged is
    returned as it is by asHealingArray, whatever fallback list no longer
    than the input is configured. *)
Theorem array_accepted_unchanged
  (c : Cleaner) (fallback : option (list value)) (l : list value) :
  fallback_length fallback <= List.length l ->
  (forall x, In x l -> c x = Return x) ->
  asHealingArray c fallback (VArr l) = Return (VArr l).
Proof.
  intros Hlen Hok. apply asMaybeArray_stable; [assumption|].
  intros i Hi. left. apply Hok. now apply nth_In.
Qed.

Lemma array_accepted_unchanged_witness :
  asHealingArray asString (Some [VStr "default"; VStr "fallback"])
    (VArr [VStr "hello"; VStr "world"; VStr "test"])
  = Return (VArr [VStr "hello"; VStr "world"; VStr "test"]).
Proof.
  apply array_accepted_unchanged.
  - simpl. lia.
  - intros x [<-|[<-|[<-|[]]]]; reflexivity.
Defined.

(** X7. When the cleaner rejects [undefined], asHealingArray with a
    fallback list returns, for the empty list, the defined non-null entries
    of the fallback list. *)
Theorem array_empty_input_fallback (c : Cleaner) (fb : list value) :
  c VUndefined = Throw ->
  asHealingArray c (Some fb) (VArr []) = Return (VArr (usable_entries fb)).
Proof.
  intros Hu. unfold asHealingArray. rewrite asMaybeArray_flat_map.
  simpl. do 2 f_equal. rewrite usable_entries_flat_map.
  rewrite <- (flat_map_at_index
                (fun v => if is_nullish v then [] else [v]) fb).
  apply flat_map_ext. intros i. unfold healed_slot.
  simpl fallback_at. unfold at_index at 1.
  replace (nth i [] VUndefined) with VUndefined by now destruct i.
  now rewrite Hu.
Qed.

Lemma array_empty_input_fallback_witness :
  asHealingArray asString (Some [VStr "default"; VNull; VStr "fallback"])
    (VArr [])
  = Return (VArr [VStr "default"; VStr "fallback"]).
Proof.
  apply (array_empty_input_fallback asString
           [VStr "default"; VNull; VStr "fallback"]).
  reflexivity.
Defined.

(* ================================================================== *)
(** * Further properties of asHealingTuple *)

Lemma asMaybeTuple_firstn c template l :
  asMaybeTuple c template (VArr l) =
  asMaybeTuple c template (VArr (firstn (List.length template) l)).
Proof.
  rewrite !asMaybeTuple_map. do 2 f_equal.
  apply map_ext_in. intros i Hi. apply in_seq in Hi.
  unfold at_index. rewrite nth_firstn.
  assert (Nat.ltb i (List.length template) = true) as ->
      by (apply Nat.ltb_lt; lia).
  reflexivity.
Qed.

(** X8. asHealingTuple on a list keeps positions: the element at index [i]
    of the output is the cleaned element at index [i] of the input, or entry
    [i] of the template when the cleaner rejects that element; past the
    end of the input it is the template entry whenever the cleaner rejects
    [undefined]. *)
Theorem tuple_positions
  (c : Cleaner) (template raw : list value) (i : nat) :
  i < List.length template ->
  exists out,
    asHealingTuple c template (VArr raw) = Return (VArr out) /\
    nth_error out i =
    Some (match c (at_index raw i) with
          | Return v => v
          | Throw => at_index template i
          end) /\
    (List.length raw <= i -> c VUndefined = Throw ->
     nth_error out i = nth_error template i).
Proof.
  intros Hi. unfold asHealingTuple. rewrite asMaybeTuple_map.
  eexists. split; [reflexivity|].
  assert (forall h : nat -> value,
             nth_error (map h (seq 0 (List.length template))) i = Some (h i))
    as Hnth.
  { intros h. rewrite nth_error_map.
    rewrite (nth_error_nth' _ 0) by (rewrite length_seq; exact Hi).
    now rewrite seq_nth. }
  split; [apply Hnth|].
  intros Hraw Hu. rewrite Hnth. unfold at_index at 1.
  rewrite (nth_overflow raw VUndefined Hraw), Hu.
  unfold at_index. symmetry. now apply nth_error_nth'.
Qed.

Lemma tuple_positions_witness :
  exists out,
    asHealingTuple asString [VStr "a"; VStr "b"; VStr "c"; VStr "d"]
      (VArr [VStr "x"; VNum 1]) = Return (VArr out) /\
    nth_error out 1 = Some (VStr "b") /\
    nth_error out 3 = Some (VStr "d").
Proof.
  destruct (tuple_positions asString [VStr "a"; VStr "b"; VStr "c"; VStr "d"]
              [VStr "x"; VNum 1] 1) as (out & Hout & H1 & _);
    [simpl; lia|].
  destruct (tuple_positions asString [VStr "a"; VStr "b"; VStr "c"; VStr "d"]
              [VStr "x"; VNum 1] 3) as (out' & Hout' & _ & H3);
    [simpl; lia|].
  exists out. split; [exact Hout|]. split; [exact H1|].
  rewrite Hout in Hout'. injection Hout' as <-.
  apply H3; [simpl; lia|reflexivity].
Defined.

(** X9. On a list no longer than the template, and with a template
    without null or undefined entries, asHealingTuple and asHealingArray
    with the template as fallback list return the same list. *)
Theorem tuple_is_array_with_fallback
  (c : Cleaner) (template raw : list value) :
  List.length raw <= List.length template ->
  (forall i, i < List.length template ->
             is_nullish (at_index template i) = false) ->
  asHealingTuple c template (VArr raw) =
  asHealingArray c (Some template) (VArr raw).
Proof.
  intros Hlen Hu. unfold asHealingTuple, asHealingArray.
  rewrite asMaybeTuple_map, asMaybeArray_flat_map. simpl fallback_length.
  rewrite Nat.max_r by assumption.
  rewrite (healed_array_shape c template raw (List.length template))
    by (try apply Hu; lia).
  rewrite Nat.sub_diag. simpl. now rewrite app_nil_r.
Qed.

Lemma tuple_is_array_with_fallback_witness :
  asHealingTuple asNumber [VNum 0; VNum 1; VNum 2] (VArr [VNum 10; VStr "x"])
  = asHealingArray asNumber (Some [VNum 0; VNum 1; VNum 2])
      (VArr [VNum 10; VStr "x"]).
Proof.
  apply tuple_is_array_with_fallback.
  - simpl. lia.
  - intros i Hi. simpl in Hi. destruct i as [|[|[|i]]]; try reflexivity. lia.
Defined.

Lemma cleaned_tail c fb raw :
  flat_map (healed_slot c (Some fb) raw)
    (seq (List.length fb)
         (Nat.max (List.length raw) (List.length fb) - List.length fb))
  = flat_map (cleaned c) (skipn (List.length fb) raw).
Proof.
  rewrite (flat_map_ext_in _ (fun i => cleaned c (at_index raw i))).
  - destruct (Nat.le_gt_cases (List.length raw) (List.length fb)) as [H|H].
    + rewrite Nat.max_r, Nat.sub_diag by assumption.
      now rewrite skipn_all2.
    + rewrite Nat.max_l by lia.
      rewrite <- (Nat.add_0_l (List.length fb)) at 1.
      rewrite <- skipn_seq.
      rewrite <- (flat_map_map_compose (cleaned c) (fun i => at_index raw i)).
      rewrite <- skipn_map. unfold at_index. now rewrite map_nth_seq.
  - intros i Hi. apply in_seq in Hi. apply healed_slot_beyond_fallback. lia.
Qed.

(** X10. With a fallback list without null or undefined entries,
    asHealingArray on a list returns what asHealingTuple returns for that
    list and that fallback, followed by what the one-argument asHealingArray
    returns for the elements past the end of the fallback list. *)
Theorem array_is_tuple_then_plain (c : Cleaner) (fb raw : list value) :
  (forall i, i < List.length fb -> is_nullish (at_index fb i) = false) ->
  exists head tail,
    asHealingTuple c fb (VArr raw) = Return (VArr head) /\
    Plain.asHealingArray c (VArr (skipn (List.length fb) raw))
    = Return (VArr tail) /\
    asHealingArray c (Some fb) (VArr raw) = Return (VArr (head ++ tail)).
Proof.
  intros Hu. unfold asHealingTuple, asHealingArray, Plain.asHealingArray.
  rewrite asMaybeTuple_map, asHealingArrayCleaner_indexed.
  rewrite asMaybeArray_cleaned, asMaybeArray_flat_map.
  simpl fallback_length.
  do 2 eexists. split; [reflexivity|]. split; [reflexivity|].
  rewrite (healed_array_shape c fb raw) by (try apply Hu; lia).
  now rewrite cleaned_tail.
Qed.

Lemma array_is_tuple_then_plain_witness :
  asHealingArray asNumber (Some [VNum 0; VNum 0])
    (VArr [VStr "a"; VNum 2; VStr "b"; VNum 4])
  = Return (VArr ([VNum 0; VNum 2] ++ [VNum 4])).
Proof.
  destruct (array_is_tuple_then_plain asNumber [VNum 0; VNum 0]
              [VStr "a"; VNum 2; VStr "b"; VNum 4])
    as (head & tail & Hh & Ht & H).
  - intros i Hi. simpl in Hi. destruct i as [|[|i]]; try reflexivity. lia.
  - injection Hh as <-. injection Ht as <-. exact H.
Defined.

(** X11. A list at least as long as the template, whose elements up to
    the length of the template the cleaner returns unchanged, is cut to the
    length of the template by asHealingTuple and otherwise left as it is. *)
Theorem tuple_accepted_truncated
  (c : Cleaner) (template l : list value) :
  List.length template <= List.length l ->
  (forall x, In x (firstn (List.length template) l) -> c x = Return x) ->
  asHealingTuple c template (VArr l) =
  Return (VArr (firstn (List.length template) l)).
Proof.
  intros Hlen Hok. unfold asHealingTuple. rewrite asMaybeTuple_firstn.
  assert (List.length (firstn (List.length template) l)
          = List.length template) as Hl
      by (rewrite length_firstn; lia).
  apply asMaybeTuple_stable; [exact Hl|].
  intros i Hi. left. apply Hok. apply nth_In. now rewrite Hl.
Qed.

Lemma tuple_accepted_truncated_witness :
  asHealingTuple asNumber [VNum 0; VNum 0]
    (VArr [VNum 1; VNum 2; VStr "rest"; VNum 4])
  = Return (VArr [VNum 1; VNum 2]).
Proof.
  apply (tuple_accepted_truncated asNumber [VNum 0; VNum 0]
           [VNum 1; VNum 2; VStr "rest"; VNum 4]).
  - simpl. lia.
  - intros x [<-|[<-|[]]]; reflexivity.
Defined.

(* ================================================================== *)
(** * Further properties of the open mode of asHealingObject *)

Lemma canonical_remove_middle (a b : list key) (k : key) :
  canonical (a ++ k :: b) = true -> canonical (a ++ b) = true.
Proof.
  induction a as [|x r IH]; simpl app.
  - rewrite canonical_cons. now intros (_ & _ & H).
  - rewrite !canonical_cons. intros (Hn & Hp & Hc). repeat split.
    + intros Hin. apply Hn. apply in_app_or in Hin as [H|H];
        apply in_or_app; [now left|right; now right].
    + intros y Hy. apply Hp. apply in_app_or in Hy as [H|H];
        apply in_or_app; [now left|right; now right].
    + now apply IH.
Qed.

(** Written in enumeration order, the kept fields come out in that
    order. *)
Lemma write_field_kept {A} (f : key -> option A) ks (o : props A) :
  canonical (keys_of o ++ ks) = true ->
  fold_left (write_field f) ks o = o ++ flat_map (kept_field f) ks.
Proof.
  revert o. induction ks as [|k r IH]; intros o Hc.
  - simpl. now rewrite app_nil_r.
  - simpl. unfold write_field at 2, kept_field at 1.
    destruct (f k) as [v|].
    + assert (canonical (keys_of (o ++ [(k, v)]) ++ r) = true) as Hc'.
      { rewrite keys_of_app, <- app_assoc. exact Hc. }
      rewrite obj_set_snoc by now apply canonical_app_l in Hc'.
      rewrite IH by assumption. now rewrite <- app_assoc.
    + apply IH. now apply canonical_remove_middle in Hc.
Qed.

Lemma enumerated_keys_canonical fb raw :
  canonical (enumerated_keys (Some fb) raw) = true.
Proof.
  unfold enumerated_keys.
  apply spread_keeps_canonical, spread_keeps_canonical. reflexivity.
Qed.

Lemma keys_flat_map_kept {A} (f : key -> option A) (ks : list key) :
  keys_of (flat_map (kept_field f) ks) =
  filter (fun k => match f k with Some _ => true | None => false end) ks.
Proof.
  induction ks as [|k r IH]; [reflexivity|].
  simpl. rewrite keys_of_app, IH. unfold kept_field.
  now destruct (f k).
Qed.

(** X12. Open mode of asHealingObject on an object whose enumerated keys
    are in enumeration order (they always are when a fallback map is given):
    the keys of the output are the enumerated keys the output has, in the
    order in which they were iterated. *)
Theorem open_mode_output_order
  (c : Cleaner) (fallback : option (props value)) (raw : value)
  (out : props value) :
  typeof_object raw = true -> is_nullish raw = false ->
  canonical (enumerated_keys fallback raw) = true ->
  asHealingObject (KeyValue c fallback) raw = Return (VObj out) ->
  keys_of out =
  filter (fun k => has_key k out) (enumerated_keys fallback raw).
Proof.
  intros Ht Hn Hc. simpl. rewrite asMaybeObject_fold by assumption.
  intros H. injection H as <-.
  rewrite (filter_ext_in _
             (fun k => match healed_field c fallback raw k with
                       | Some _ => true
                       | None => false
                       end)).
  - unfold healed_object. rewrite write_field_kept by assumption.
    apply keys_flat_map_kept.
  - intros k Hk. unfold has_key. rewrite healed_out_lookup.
    destruct (in_dec string_dec k (enumerated_keys fallback raw));
      [reflexivity|contradiction].
Qed.

Lemma open_mode_output_order_witness :
  keys_of [("7", VNum 0); ("b", VNum 1)] =
  filter (fun k => has_key k [("7", VNum 0); ("b", VNum 1)])
    (enumerated_keys (Some [("7", VNum 0); ("z", VNull)])
       (VObj [("b", VNum 1); ("a", VStr "bad"); ("__proto__", VNum 2)])).
Proof.
  apply (open_mode_output_order asNumber
           (Some [("7", VNum 0); ("z", VNull)])
           (VObj [("b", VNum 1); ("a", VStr "bad"); ("__proto__", VNum 2)]));
    reflexivity.
Defined.

Lemma healed_field_own c fallback o k :
  object_member k = None ->
  healed_field c fallback (VObj o) k =
  match c (own_or_undefined o k) with
  | Return v => Some v
  | Throw =>
      match own_entry fallback k with
      | Some f => if is_nullish f then None else Some f
      | None => None
      end
  end.
Proof.
  intros Hk. unfold healed_field, own_or_undefined, own_entry.
  assert ((k =? "__proto__") = false) as ->.
  { destruct (k =? "__proto__") eqn:E; [|reflexivity].
    apply String.eqb_eq in E. subst k. discriminate. }
  simpl get. unfold fallback_prop, prop. rewrite Hk. simpl inherited.
  destruct (lookup k o); destruct (c _); try reflexivity;
    destruct fallback as [fb|]; try reflexivity;
    destruct (lookup k fb); reflexivity.
Qed.

(** X13. Open mode on an object, at a key that does not name a member of
    [Object.prototype]: the value the output holds under the key is the
    value the cleaner returned for the raw input's own property of that key
    ([undefined] when it has none), or the non-null own entry of the
    fallback map under that key when the cleaner rejected that property: no
    raw value is passed through. *)
Theorem open_mode_output_provenance
  (c : Cleaner) (fallback : option (props value)) (o out : props value)
  (k : key) (v : value) :
  object_member k = None ->
  asHealingObject (KeyValue c fallback) (VObj o) = Return (VObj out) ->
  In (k, v) out ->
  c (own_or_undefined o k) = Return v \/
  (c (own_or_undefined o k) = Throw /\ own_entry fallback k = Some v /\
   is_nullish v = false).
Proof.
  simpl. intros Hk Hout Hin.
  rewrite asMaybeObject_fold in Hout by reflexivity. injection Hout as <-.
  apply healed_out_entry in Hin. rewrite healed_field_own in Hin by assumption.
  destruct (c (own_or_undefined o k)) as [w|].
  - left. now injection Hin as ->.
  - right. destruct (own_entry fallback k) as [f|]; [|discriminate].
    destruct (is_nullish f) eqn:Hu; [discriminate|].
    injection Hin as <-. auto.
Qed.

Lemma open_mode_output_provenance_witness :
  asNumber (own_or_undefined [("age", VNum 25); ("count", VStr "invalid")]
              "count") = Return (VNum 0) \/
  (asNumber (own_or_undefined [("age", VNum 25); ("count", VStr "invalid")]
               "count") = Throw /\
   own_entry (Some [("age", VNum 0); ("count", VNum 0)]) "count"
   = Some (VNum 0) /\
   is_nullish (VNum 0) = false).
Proof.
  apply (open_mode_output_provenance asNumber
           (Some [("age", VNum 0); ("count", VNum 0)])
           [("age", VNum 25); ("count", VStr "invalid")]
           [("age", VNum 25); ("count", VNum 0)] "count").
  - reflexivity.
  - reflexivity.
  - simpl. right. left. reflexivity.
Defined.

(** X14. An object without the key [__proto__], every value of which the
    cleaner returns unchanged, is returned as it is by the open mode,
    without a fallback map or with one all of whose keys the object has. *)
Theorem open_mode_accepted_unchanged
  (c : Cleaner) (fallback : option (props value)) (o : props value) :
  canonical (keys_of o) = true ->
  ~ In "__proto__" (keys_of o) ->
  (forall k v, In (k, v) o -> c v = Return v) ->
  (forall fb, fallback = Some fb ->
              canonical (keys_of fb) = true /\
              forall k, In k (keys_of fb) -> In k (keys_of o)) ->
  asHealingObject (KeyValue c fallback) (VObj o) = Return (VObj o).
Proof.
  intros Hc Hproto Hok Hfb. simpl. apply asMaybeObject_stable.
  - exact Hc.
  - intros k v Hin. unfold healed_field. simpl get.
    rewrite (lookup_In k v o) by (try apply canonical_NoDup; assumption).
    rewrite (Hok k v Hin).
    destruct (k =? "__proto__") eqn:E; [|reflexivity].
    apply String.eqb_eq in E. subst k. exfalso. apply Hproto.
    change "__proto__" with (fst ("__proto__", v)). now apply in_map.
  - intros fb E. destruct (Hfb fb E) as [Hcfb Hsub].
    split; [now apply canonical_NoDup|].
    intros k Hk Hn. exfalso. apply Hn. now apply Hsub.
Qed.

Lemma open_mode_accepted_unchanged_witness :
  asHealingObject (KeyValue asString (Some [("b", VStr "fallback")]))
    (VObj [("a", VStr "hello"); ("b", VStr "world")])
  = Return (VObj [("a", VStr "hello"); ("b", VStr "world")]).
Proof.
  apply open_mode_accepted_unchanged.
  - reflexivity.
  - simpl. intros [H|[H|[]]]; discriminate.
  - intros k v [E|[E|[]]]; injection E as <- <-; reflexivity.
  - intros fb E. injection E as <-. split; [reflexivity|].
    intros k [<-|[]]. simpl. right. left. reflexivity.
Defined.

Lemma fold_write_field_ext {A} (f g : key -> option A) ks (o : props A) :
  (forall k, In k ks -> f k = g k) ->
  fold_left (write_field f) ks o = fold_left (write_field g) ks o.
Proof.
  revert o. induction ks as [|k r IH]; intros o H; [reflexivity|].
  simpl. unfold write_field at 2 4. rewrite (H k) by now left.
  apply IH. intros x Hx. apply H. now right.
Qed.

(** X15. For the open mode an absent fallback and an empty fallback map
    are the same configuration, on every raw input whose keys are in
    enumeration order (as the keys of an object are) and none of whose keys
    names a member of [Object.prototype]. *)
Theorem open_mode_empty_fallback_is_no_fallback (c : Cleaner) (raw : value) :
  canonical (Object_keys raw) = true ->
  (forall k, In k (Object_keys raw) -> object_member k = None) ->
  asHealingObject (KeyValue c (Some [])) raw =
  asHealingObject (KeyValue c None) raw.
Proof.
  intros Hc Hplain. simpl.
  destruct (structured_or_not raw) as [[Ht Hn]|H].
  2:{ now rewrite !asMaybeObject_not_object
        by (destruct H; [now left|now right]). }
  rewrite !asMaybeObject_fold by assumption. do 2 f_equal.
  unfold healed_object, enumerated_keys, Object_keys in *.
  change (spread (spread [] (own_entries raw)) [])
    with (spread [] (own_entries raw)).
  rewrite spread_copy by assumption.
  apply fold_write_field_ext. intros k Hk. unfold healed_field.
  simpl fallback_prop. unfold prop. simpl lookup.
  now rewrite (Hplain k Hk).
Qed.

Lemma open_mode_empty_fallback_is_no_fallback_witness :
  asHealingObject (KeyValue asNumber (Some []))
    (VObj [("2", VNum 1); ("a", VStr "x"); ("b", VNum 3)])
  = asHealingObject (KeyValue asNumber None)
      (VObj [("2", VNum 1); ("a", VStr "x"); ("b", VNum 3)]).
Proof.
  apply open_mode_empty_fallback_is_no_fallback.
  - reflexivity.
  - intros k [<-|[<-|[<-|[]]]]; reflexivity.
Defined.

Lemma flat_map_keys_filter {A} (g : key -> props A) (p : key * A -> bool)
  (o : props A) :
  (forall kv, In kv o -> g (fst kv) = if p kv then [kv] else []) ->
  flat_map g (keys_of o) = filter p o.
Proof.
  induction o as [|kv r IH]; intros H; [reflexivity|].
  simpl. rewrite (H kv) by now left.
  rewrite IH by (intros x Hx; apply H; now right).
  now destruct (p kv).
Qed.

(** X16. When the cleaner rejects [undefined] and no key of the fallback
    map names a member of [Object.prototype], the open mode returns, for
    the empty object, the non-null entries of the fallback map, in the
    order of the fallback map. *)
Theorem open_mode_empty_object_fallback (c : Cleaner) (fb : props value) :
  c VUndefined = Throw ->
  canonical (keys_of fb) = true ->
  (forall k, In k (keys_of fb) -> object_member k = None) ->
  asHealingObject (KeyValue c (Some fb)) (VObj []) =
  Return (VObj (usable_props fb)).
Proof.
  intros Hu Hc Hplain. simpl. rewrite asMaybeObject_fold by reflexivity.
  do 2 f_equal. unfold healed_object.
  rewrite write_field_kept by apply enumerated_keys_canonical.
  unfold enumerated_keys. simpl own_entries.
  change (spread [] []) with (@nil (key * value)).
  rewrite spread_copy by assumption.
  apply flat_map_keys_filter. intros [k v] Hin. simpl fst. simpl snd.
  assert (In k (keys_of fb)) as Hk
      by (change k with (fst (k, v)); now apply in_map).
  unfold kept_field. rewrite healed_field_own by now apply Hplain.
  change (own_or_undefined [] k) with VUndefined. rewrite Hu.
  unfold own_entry.
  rewrite (lookup_In k v fb) by (try apply canonical_NoDup; assumption).
  assert ((k =? "__proto__") = false) as ->.
  { destruct (k =? "__proto__") eqn:E; [|reflexivity].
    apply String.eqb_eq in E. subst k. now specialize (Hplain _ Hk). }
  now destruct (is_nullish v).
Qed.

Lemma open_mode_empty_object_fallback_witness :
  asHealingObject
    (KeyValue asString
       (Some [("name", VStr "Unknown"); ("nick", VNull);
              ("orientation", VStr "bitcoiner")]))
    (VObj [])
  = Return (VObj [("name", VStr "Unknown");
                  ("orientation", VStr "bitcoiner")]).
Proof.
  apply (open_mode_empty_object_fallback asString
           [("name", VStr "Unknown"); ("nick", VNull);
            ("orientation", VStr "bitcoiner")]).
  - reflexivity.
  - reflexivity.
  - intros k [<-|[<-|[<-|[]]]]; reflexivity.
Defined.



(* ================================================================== *)
(** * Further properties of the closed mode of asHealingObject *)

Lemma lookup_Some_In {A} (k : key) (v : A) (o : props A) :
  lookup k o = Some v -> In (k, v) o.
Proof.
  induction o as [|[a w] r IH]; simpl; [discriminate|].
  destruct (k =? a) eqn:E.
  - apply String.eqb_eq in E. subst a. intros H. injection H as ->. now left.
  - intros H. right. now apply IH.
Qed.

(** X17. The guarded shape built by the closed mode has the fields of the
    shape, in the order of the shape, and each of its field cleaners never
    throws: it returns what the field cleaner of the shape returns, and the
    property of the fallback record under that field's name when the field
    cleaner throws. *)
Theorem safeShape_guards_every_field
  (shape : props Cleaner) (fallback : props value) :
  canonical (keys_of shape) = true ->
  keys_of (safeShape shape fallback) = keys_of shape /\
  (forall k x,
      In k (keys_of shape) ->
      call_prop (safeShape shape fallback) k x =
      Return (match call_prop shape k x with
              | Return v => v
              | Throw => prop fallback k
              end)).
Proof.
  intros Hc. split; [now apply keys_safeShape|].
  intros k x Hk. rewrite call_safeShape by assumption.
  unfold asMaybe. now destruct (call_prop shape k x).
Qed.

Lemma safeShape_guards_every_field_witness :
  keys_of (safeShape [("name", asString); ("age", asNumber)]
             [("name", VStr "Unknown"); ("age", VNum 0)])
  = ["name"; "age"] /\
  call_prop (safeShape [("name", asString); ("age", asNumber)]
               [("name", VStr "Unknown"); ("age", VNum 0)])
    "age" (VStr "invalid")
  = Return (VNum 0).
Proof.
  destruct (safeShape_guards_every_field
              [("name", asString); ("age", asNumber)]
              [("name", VStr "Unknown"); ("age", VNum 0)] eq_refl)
    as [Hkeys Hcall].
  split; [exact Hkeys|].
  apply (Hcall "age" (VStr "invalid")). simpl. right. left. reflexivity.
Defined.

(** X18. An object that has exactly the fields of the shape, in the order
    of the shape, each holding a value its field cleaner returns unchanged,
    is returned as it is by the closed mode. *)
Theorem closed_mode_accepted_unchanged
  (shape : props Cleaner) (fallback o : props value) :
  canonical (keys_of shape) = true ->
  keys_of o = keys_of shape ->
  (forall k v, In (k, v) o -> call_prop shape k v = Return v) ->
  asHealingObject (Shape shape fallback) (VObj o) = Return (VObj o).
Proof.
  intros Hc Hkeys Hok. simpl. rewrite asHealingShape_object by assumption.
  do 2 f_equal. rewrite healed_record_stable.
  - rewrite <- Hkeys. apply map_prop_self. rewrite Hkeys.
    now apply canonical_NoDup.
  - intros k Hk. rewrite <- Hkeys in Hk. apply has_key_true in Hk.
    unfold has_key in Hk. destruct (lookup k o) as [v|] eqn:E;
      [|discriminate].
    exists v. split; [reflexivity|]. left. apply Hok.
    now apply lookup_Some_In.
Qed.

Lemma closed_mode_accepted_unchanged_witness :
  asHealingObject
    (Shape [("name", asString); ("age", asNumber)]
           [("name", VStr "Unknown"); ("age", VNum 0)])
    (VObj [("name", VStr "John"); ("age", VNum 30)])
  = Return (VObj [("name", VStr "John"); ("age", VNum 30)]).
Proof.
  apply closed_mode_accepted_unchanged.
  - reflexivity.
  - reflexivity.
  - intros k v [E|[E|[]]]; injection E as <- <-; reflexivity.
Defined.

(** X19. When the fallback record lists the fields of the shape in the
    order of the shape, an object every declared field of which is rejected
    by its field cleaner is healed by the closed mode to the fallback
    record. *)
Theorem closed_mode_all_rejected
  (shape : props Cleaner) (fallback o : props value) :
  canonical (keys_of shape) = true ->
  keys_of fallback = keys_of shape ->
  (forall k, In k (keys_of shape) ->
             call_prop shape k (get (VObj o) k) = Throw) ->
  asHealingObject (Shape shape fallback) (VObj o) = Return (VObj fallback).
Proof.
  intros Hc Hkeys Hrej. simpl. rewrite asHealingShape_object by assumption.
  do 2 f_equal. unfold healed_record.
  transitivity (map (fun k => (k, prop fallback k)) (keys_of shape)).
  - apply map_ext_in. intros k Hk. now rewrite Hrej.
  - rewrite <- Hkeys. apply map_prop_self. rewrite Hkeys.
    now apply canonical_NoDup.
Qed.

Lemma closed_mode_all_rejected_witness :
  asHealingObject
    (Shape [("name", asString); ("age", asNumber)]
           [("name", VStr "Unknown"); ("age", VNum 0)])
    (VObj [("name", VNum 123); ("age", VStr "invalid")])
  = Return (VObj [("name", VStr "Unknown"); ("age", VNum 0)]).
Proof.
  apply closed_mode_all_rejected.
  - reflexivity.
  - reflexivity.
  - intros k [<-|[<-|[]]]; reflexivity.
Defined.
